(** * neuroPulse: EMG tremor pipeline

    Shallow embedding of the signal-processing core of the repository:

    - the ESP32 firmware sketch (bandpass filter, direct Fourier sum,
      [extractFeatures], [classifyTremor], [generateInsights],
      [processTremorData]), in module [Firmware];
    - the server-side TypeScript module [emgProcessing]
      ([ButterworthFilter], [simpleFFT], [extractEMGFeatures],
      [generateEMGInsights]), in module [Server].

    The code is written once, over an abstract number type, and read twice:

    - over the reals, with exact arithmetic and the real [sqrt], [cos],
      [sin] and [ln]: rounding is abstracted, and this is the reading of
      every property of values and orderings below;
    - over IEEE-754 binary64, the [number] type of the server, where NaN and
      the infinities exist: this is the reading of the properties about
      non-finite samples and zero divisors.  The firmware computes in
      binary32; what is stated of it in binary64 involves only 0, NaN and
      the infinities, which behave alike in both formats. *)

From Stdlib Require Import String.
From Stdlib Require Import Floats ZArith QArith List Bool.
From Stdlib Require Import Reals Lra Lia.
Import ListNotations.

Set Implicit Arguments.

(** ** Numbers *)

(** The operations the sources use on [float] (C++) and [number] (TS). *)
Class Arith (T : Type) : Type := {
  ofZ : Z -> T;               (* integer constants, int -> float conversion *)
  lit : Q -> T;               (* decimal literals *)
  add : T -> T -> T;
  sub : T -> T -> T;
  mul : T -> T -> T;
  div : T -> T -> T;
  ltb : T -> T -> bool;
  leb : T -> T -> bool;
  eqb : T -> T -> bool;
  fabs : T -> T;
  fsqrt : T -> T
}.

(** [cos], [sin], [log] and the constant pi come from the math library. *)
Class Transc (T : Type) : Type := {
  fcos : T -> T;
  fsin : T -> T;
  flog : T -> T;
  pi : T
}.

Declare Scope num_scope.
Delimit Scope num_scope with num.
Infix "+" := add : num_scope.
Infix "-" := sub : num_scope.
Infix "*" := mul : num_scope.
Infix "/" := div : num_scope.
Infix "<?" := ltb (at level 70, no associativity) : num_scope.
Infix "<=?" := leb (at level 70, no associativity) : num_scope.
Infix "=?" := eqb (at level 70, no associativity) : num_scope.
Notation "x >? y" := (ltb y x) (at level 70, no associativity) : num_scope.
Notation "x >=? y" := (leb y x) (at level 70, no associativity) : num_scope.

(** *** Exact arithmetic *)

Definition Rltb (x y : R) : bool := if Rlt_dec x y then true else false.
Definition Rleb (x y : R) : bool := if Rle_dec x y then true else false.
Definition Reqb (x y : R) : bool := if Req_dec_T x y then true else false.

#[export] Instance RArith : Arith R := {|
  ofZ := IZR;
  lit := Q2R;
  add := Rplus;
  sub := Rminus;
  mul := Rmult;
  div := Rdiv;
  ltb := Rltb;
  leb := Rleb;
  eqb := Reqb;
  fabs := Rabs;
  fsqrt := R_sqrt.sqrt
|}.

#[export] Instance RTransc : Transc R := {|
  fcos := Rtrigo_def.cos;
  fsin := Rtrigo_def.sin;
  flog := ln;
  pi := PI
|}.

(** *** IEEE-754 binary64 *)

Definition float_ofZ (z : Z) : float :=
  match z with
  | Z0 => PrimFloat.zero
  | Zpos _ => PrimFloat.of_uint63 (Uint63.of_Z z)
  | Zneg p => PrimFloat.opp (PrimFloat.of_uint63 (Uint63.of_Z (Zpos p)))
  end.

(** A decimal literal is the correctly rounded quotient of two integers that
    binary64 holds exactly. *)
Definition float_lit (q : Q) : float :=
  PrimFloat.div (float_ofZ (Qnum q)) (float_ofZ (Zpos (Qden q))).

#[export] Instance FloatArith : Arith float := {|
  ofZ := float_ofZ;
  lit := float_lit;
  add := PrimFloat.add;
  sub := PrimFloat.sub;
  mul := PrimFloat.mul;
  div := PrimFloat.div;
  ltb := PrimFloat.ltb;
  leb := PrimFloat.leb;
  eqb := PrimFloat.eqb;
  fabs := PrimFloat.abs;
  fsqrt := PrimFloat.sqrt
|}.

(** [x != x] holds of NaN only. *)
Definition isNaN {T} `{Arith T} (x : T) : bool := negb (x =? x)%num.

(** ** Shared pieces of the two feature extractors *)

(** The four labels both classifiers return. *)
Inductive Severity : Type := normal | mild | moderate | severe.

Definition patternName (c : Severity) : string :=
  match c with
  | normal => "normal"
  | mild => "mild"
  | moderate => "moderate"
  | severe => "severe"
  end.

(** Position of a label in the order normal < mild < moderate < severe. *)
Definition ordinal (c : Severity) : nat :=
  match c with
  | normal => 0
  | mild => 1
  | moderate => 2
  | severe => 3
  end.

(** State of the dominant-frequency scan. *)
Record Scan (T : Type) : Type :=
  mkScan { maxMagnitude : T; dominantFreqBin : nat; totalPower : T }.

Section Loops.
Context {T : Type} `{Arith T}.
Local Open Scope num_scope.

Definition ofNat (n : nat) : T := ofZ (Z.of_nat n).

(** [a[i]] for an index inside the array. *)
Definition at_ (a : list T) (i : nat) : T := nth i a (ofZ 0).

(** [freq >= 3 && freq <= 12]: the tremor frequency range. *)
Definition inBand (freq : T) : bool := (freq >=? ofZ 3) && (freq <=? ofZ 12).

(** [(s[i-1] > 0 && s[i] < 0) || (s[i-1] < 0 && s[i] > 0)]. *)
Definition crosses (prev cur : T) : bool :=
  ((prev >? ofZ 0) && (cur <? ofZ 0)) || ((prev <? ofZ 0) && (cur >? ofZ 0)).

(** [for (i = 1; i < length; i++) if (crossing) zeroCrossings++]. *)
Definition countZeroCrossings (signal : list T) (length : nat) : nat :=
  fold_left
    (fun zeroCrossings i =>
       if crosses (at_ signal (i - 1)) (at_ signal i)
       then S zeroCrossings else zeroCrossings)
    (seq 1 (length - 1)) 0%nat.

(** Body of the loop that finds the dominant bin; [freqOf i] is the
    frequency of bin [i]. *)
Definition scanStep (freqOf : nat -> T) (magnitude : list T)
           (s : Scan T) (i : nat) : Scan T :=
  if inBand (freqOf i) then
    let totalPower' := totalPower s + at_ magnitude i in
    if at_ magnitude i >? maxMagnitude s
    then mkScan (at_ magnitude i) i totalPower'
    else mkScan (maxMagnitude s) (dominantFreqBin s) totalPower'
  else s.

(** [for (i = 1; i < bins; i++)] from
    [maxMagnitude = 0, dominantFreqBin = 0, totalPower = 0]. *)
Definition scanBand (freqOf : nat -> T) (magnitude : list T) (bins : nat)
  : Scan T :=
  fold_left (scanStep freqOf magnitude) (seq 1 (bins - 1))
            (mkScan (ofZ 0) 0%nat (ofZ 0)).

(** The spectral-centroid loop: [weightedSum += freq * magnitude[i]]. *)
Definition weightedSumBand (freqOf : nat -> T) (magnitude : list T)
           (bins : nat) : T :=
  fold_left
    (fun weightedSum i =>
       if inBand (freqOf i)
       then weightedSum + freqOf i * at_ magnitude i
       else weightedSum)
    (seq 1 (bins - 1)) (ofZ 0).

(** [std::min] and [std::max] (the ESP32 core imports them). *)
Definition stdMin (a b : T) : T := if b <? a then b else a.
Definition stdMax (a b : T) : T := if a <? b then b else a.

(** [Math.min] and [Math.max]: NaN if an argument is NaN. *)
Definition mathMin (a b : T) : T :=
  if isNaN a then a else if isNaN b then b else if b <? a then b else a.
Definition mathMax (a b : T) : T :=
  if isNaN a then a else if isNaN b then b else if a <? b then b else a.

(** [x || 0]: zero and NaN are falsy. *)
Definition orZero (x : T) : T :=
  if (x =? ofZ 0) || isNaN x then ofZ 0 else x.
End Loops.

Section Fourier.
Context {T : Type} `{Arith T} `{Transc T}.
Local Open Scope num_scope.

(** The inner loop of the direct Fourier sum for one bin of frequency
    [freq]: it returns [sqrt(real * real + imag * imag)]. *)
Definition binMagnitude (data : list T) (n : nat) (sampleRate freq : T) : T :=
  let '(real, imag) :=
    fold_left
      (fun '(real, imag) t =>
         let angle := ofZ (-2) * pi * freq * ofNat t / sampleRate in
         (real + at_ data t * fcos angle, imag + at_ data t * fsin angle))
      (seq 0 n) (ofZ 0, ofZ 0) in
  fsqrt (real * real + imag * imag).
End Fourier.

(** ** Signal filter *)

(** The three-slot [history] array of both filters. *)
Record History (T : Type) : Type := mkHistory { h0 : T; h1 : T; h2 : T }.

Section FilterCoefficients.
Context {T : Type} `{Arith T}.
Local Open Scope num_scope.

Definition b0 : T := lit 0.0976.
Definition b1 : T := lit 0.1952.
Definition b2 : T := lit 0.0976.
Definition a0 : T := lit 1.0000.
Definition a1 : T := lit (-0.9428).
Definition a2 : T := lit 0.3333.

(** [history = [0, 0, 0]], the initial state and the state after [reset]. *)
Definition reset : History T := mkHistory (ofZ 0) (ofZ 0) (ofZ 0).

(** Thread a one-sample filter through a sample stream. *)
Fixpoint runFilter (step : History T -> T -> History T * T)
         (s : History T) (signal : list T) : list T :=
  match signal with
  | [] => []
  | x :: rest => let (s', y) := step s x in y :: runFilter step s' rest
  end.

End FilterCoefficients.

(** ** Server: the module emgProcessing *)

Module Server.

(** [class ButterworthFilter]. *)
Section Filter.
Context {T : Type} `{Arith T}.
Local Open Scope num_scope.

(** [filter(input)]: shift the history, then combine its three slots. *)
Definition filter (s : History T) (input : T) : History T * T :=
  let s' := mkHistory input (h0 s) (h1 s) in
  let output := b0 * h0 s' + b1 * h1 s' + b2 * h2 s'
                - a1 * h1 s' - a2 * h2 s' in
  (s', output).

(** [applyBandpassFilter(signal)]: a fresh filter mapped over the signal. *)
Definition applyBandpassFilter (signal : list T) : list T :=
  runFilter filter reset signal.
End Filter.

(** [interface ProcessedEMGFeatures]. *)
Record ProcessedEMGFeatures (T : Type) : Type := mkFeatures {
  frequency : T;
  amplitude : T;
  severityIndex : T;
  dominantFrequency : T;
  spectralCentroid : T;
  signalEnergy : T;
  zeroCrossingRate : T;
  rmsAmplitude : T;
  meanAmplitude : T;
  signalVariance : T
}.

(** The value [generateEMGInsights] returns. *)
Record Insights (T : Type) : Type := mkInsights {
  pattern : Severity;
  confidence : T;
  recommendations : list string;
  predictedProgression : string
}.

Section Features.
Context {T : Type} `{Arith T} `{Transc T}.
Local Open Scope string_scope.
Local Open Scope num_scope.

(** Number of iterations of [for (k = 0; k < n / 2; k++)]: the bound is
    the number [n / 2], so an odd [n] gets one more bin than half of it. *)
Definition binCount (n : nat) : nat := Nat.div2 (S n).

(** [simpleFFT(data, sampleRate)]: the [magnitude] and [frequency] arrays. *)
Definition simpleFFT (data : list T) (sampleRate : T) : list T * list T :=
  let n := length data in
  let freqOf k := ofNat k * sampleRate / ofNat n in
  (map (fun k => binMagnitude data n sampleRate (freqOf k)) (seq 0 (binCount n)),
   map freqOf (seq 0 (binCount n))).

Definition zeroFeatures : ProcessedEMGFeatures T :=
  mkFeatures (ofZ 0) (ofZ 0) (ofZ 0) (ofZ 0) (ofZ 0)
             (ofZ 0) (ofZ 0) (ofZ 0) (ofZ 0) (ofZ 0).

(** The severity index of the server: three weighted contributions,
    clamped with [Math.min(100, Math.max(0, ...))]. *)
Definition severityOf (rmsAmplitude dominantFrequency zeroCrossingRate : T) : T :=
  mathMin (ofZ 100) (mathMax (ofZ 0)
    (rmsAmplitude / ofZ 100 * ofZ 50
     + dominantFrequency / ofZ 10 * ofZ 30
     + zeroCrossingRate * ofZ 100 * ofZ 20)).

(** [extractEMGFeatures(signal, sampleRate)]. *)
Definition extractEMGFeatures (signal : list T) (sampleRate : T)
  : ProcessedEMGFeatures T :=
  match signal with
  | [] => zeroFeatures
  | _ =>
    let len := length signal in
    let meanAmplitude :=
      fold_left (fun sum val => sum + fabs val) signal (ofZ 0) / ofNat len in
    let rmsAmplitude :=
      fsqrt (fold_left (fun sum val => sum + val * val) signal (ofZ 0)
             / ofNat len) in
    let signalEnergy := rmsAmplitude * rmsAmplitude in
    let signalVariance :=
      fold_left
        (fun sum val => sum + (val - meanAmplitude) * (val - meanAmplitude))
        signal (ofZ 0) / ofNat len in
    let zeroCrossings := countZeroCrossings signal len in
    let zeroCrossingRate := ofNat zeroCrossings / ofNat len in
    let '(magnitude, frequencyArray) := simpleFFT signal sampleRate in
    let scan := scanBand (at_ frequencyArray) magnitude (length magnitude) in
    let dominantFrequency :=
      match nth_error frequencyArray (dominantFreqBin scan) with
      | Some f => orZero f
      | None => ofZ 0
      end in
    let weightedSum :=
      weightedSumBand (at_ frequencyArray) magnitude (length magnitude) in
    let spectralCentroid :=
      if totalPower scan >? ofZ 0
      then weightedSum / totalPower scan else ofZ 0 in
    mkFeatures dominantFrequency rmsAmplitude
               (severityOf rmsAmplitude dominantFrequency zeroCrossingRate)
               dominantFrequency spectralCentroid signalEnergy
               zeroCrossingRate rmsAmplitude meanAmplitude signalVariance
  end.

(** The class and the confidence chosen by [generateEMGInsights]. *)
Definition classOf (features : ProcessedEMGFeatures T) : Severity * T :=
  if severityIndex features >? ofZ 70 then
    (severe, mathMin (lit 0.95) (lit 0.7 + signalVariance features / ofZ 1000))
  else if severityIndex features >? ofZ 40 then
    (moderate, mathMin (lit 0.90) (lit 0.6 + dominantFrequency features / ofZ 15))
  else if severityIndex features >? ofZ 20 then
    (mild, mathMin (lit 0.85) (lit 0.5 + rmsAmplitude features / ofZ 50))
  else
    (normal, mathMin (lit 0.80) (lit 0.4 + zeroCrossingRate features * ofZ 5)).

(** [generateEMGInsights(features)]. *)
Definition generateEMGInsights (features : ProcessedEMGFeatures T) : Insights T :=
  let '(pattern, confidence) := classOf features in
  match pattern with
  | severe =>
    mkInsights pattern confidence
      ["Contact healthcare provider immediately";
       "Monitor for medication effectiveness";
       "Consider DBS evaluation if persistent"]
      "Rapid progression likely - immediate intervention recommended"
  | moderate =>
    mkInsights pattern confidence
      ["Continue current medication regimen";
       "Monitor for pattern changes";
       "Consider physical therapy"]
      "Stable with potential slow progression"
  | mild =>
    mkInsights pattern confidence
      ["Regular monitoring recommended";
       "Maintain healthy lifestyle";
       "Watch for progression indicators"]
      "Early stage - monitor closely"
  | normal =>
    mkInsights pattern confidence
      ["Continue normal activities";
       "Regular check-ups recommended";
       "No immediate concerns"]
      "Normal variation - no progression detected"
  end.

(** The [totalPower] that [extractEMGFeatures] accumulates over the bins
    in the 3-12 Hz range (the record does not carry it). *)
Definition bandPower (signal : list T) (sampleRate : T) : T :=
  let '(magnitude, frequencyArray) := simpleFFT signal sampleRate in
  totalPower (scanBand (at_ frequencyArray) magnitude (length magnitude)).
End Features.
End Server.

(** ** Firmware: the ESP32 sketch *)

Module Firmware.

(** [applyBandpassFilter]. *)
Section Filter.
Context {T : Type} `{Arith T}.
Local Open Scope num_scope.

(** One call on the global [filterHistory]. *)
Definition applyBandpassFilter (s : History T) (input : T) : History T * T :=
  let s' := mkHistory input (h0 s) (h1 s) in
  let output := b0 * h0 s' + b1 * h1 s' + b2 * h2 s'
                - a1 * (h1 s' - h1 s') - a2 * (h2 s' - h2 s') in
  (s', output).
End Filter.

Definition SAMPLE_RATE : Z := 200.

(** [struct TremorFeatures]. *)
Record TremorFeatures (T : Type) : Type := mkFeatures {
  meanAmplitude : T;
  rmsAmplitude : T;
  dominantFrequency : T;
  frequencyPower : T;
  spectralCentroid : T;
  zeroCrossingRate : T;
  signalEnergy : T;
  entropy : T
}.

(** [struct AIInsights]. *)
Record AIInsights (T : Type) : Type := mkInsights {
  pattern : Severity;
  confidence : T;
  recommendations : list string;
  predictedProgression : string
}.

(** The fields [processTremorData] writes into the JSON document. *)
Record Payload (T : Type) : Type := mkPayload {
  frequency : T;
  amplitude : T;
  severityIndex : T;
  aiInsights : AIInsights T
}.


Section Amplitude.
Context {T : Type} `{Arith T}.
Local Open Scope num_scope.

(** [(float)i * SAMPLE_RATE / length]. *)
Definition binFrequency (length i : nat) : T :=
  ofNat i * ofZ SAMPLE_RATE / ofNat length.

(** The samples [signal[0 .. length-1]] the loops run over. *)
Definition samples (signal : list T) (length : nat) : list T :=
  map (at_ signal) (seq 0 length).

(** The two loops that end in
    [rmsAmplitude = sqrt(rmsAmplitude / length)]. *)
Definition rms (signal : list T) (length : nat) : T :=
  fsqrt (fold_left (fun acc x => acc + x * x) (samples signal length) (ofZ 0)
         / ofNat length).

(** The local [normalized] of the entropy loop. *)
Definition normalized (rmsAmplitude sample : T) : T :=
  fabs sample / rmsAmplitude.
End Amplitude.

Section Features.
Context {T : Type} `{Arith T} `{Transc T}.
Local Open Scope string_scope.
Local Open Scope num_scope.

(** [simpleFFT(data, magnitude, n)]: bins [0 .. n/2 - 1], integer [n / 2]. *)
Definition simpleFFT (data : list T) (n : nat) : list T :=
  map (fun k => binMagnitude data n (ofZ SAMPLE_RATE) (binFrequency n k))
      (seq 0 (n / 2)).

(** [if (normalized > 0.001) entropy -= normalized * log(normalized)]. *)
Definition entropyStep (rmsAmplitude : T) (entropy sample : T) : T :=
  if normalized rmsAmplitude sample >? lit 0.001
  then entropy - normalized rmsAmplitude sample
                 * flog (normalized rmsAmplitude sample)
  else entropy.

(** [extractFeatures(signal, length)]. *)
Definition extractFeatures (signal : list T) (length : nat) : TremorFeatures T :=
  let window := samples signal length in
  let meanAmplitude :=
    fold_left (fun acc x => acc + fabs x) window (ofZ 0) / ofNat length in
  let rmsAmplitude := rms signal length in
  let signalEnergy := rmsAmplitude * rmsAmplitude in
  let zeroCrossings := countZeroCrossings signal length in
  let zeroCrossingRate := ofNat zeroCrossings / ofNat length in
  let magnitudeBuffer := simpleFFT signal length in
  let scan := scanBand (binFrequency length) magnitudeBuffer (length / 2) in
  let dominantFrequency :=
    ofNat (dominantFreqBin scan) * ofZ SAMPLE_RATE / ofNat length in
  let weightedSum :=
    weightedSumBand (binFrequency length) magnitudeBuffer (length / 2) in
  let spectralCentroid :=
    if totalPower scan >? ofZ 0
    then weightedSum / totalPower scan else ofZ 0 in
  let entropy := fold_left (entropyStep rmsAmplitude) window (ofZ 0) in
  mkFeatures meanAmplitude rmsAmplitude dominantFrequency (totalPower scan)
             spectralCentroid zeroCrossingRate signalEnergy entropy.

(** [struct MLModel]. *)
Definition weights : list T :=
  [lit 0.1; lit (-0.2); lit 0.3; lit (-0.1); lit 0.2;
   lit 0.15; lit (-0.25); lit 0.05; lit 0.1; lit (-0.05)].
Definition bias : T := lit 0.5.

(** The array [normalizedFeatures] of [classifyTremor]. *)
Definition normalizedFeatures (features : TremorFeatures T) : list T :=
  [meanAmplitude features / lit 100.0;
   rmsAmplitude features / lit 100.0;
   dominantFrequency features / lit 10.0;
   frequencyPower features / lit 1000.0;
   spectralCentroid features / lit 10.0;
   zeroCrossingRate features * lit 10.0;
   signalEnergy features / lit 10000.0;
   entropy features / lit 10.0;
   (if (dominantFrequency features >=? ofZ 3)
       && (dominantFrequency features <=? ofZ 8)
    then lit 1.0 else lit 0.0);
   (if rmsAmplitude features >? ofZ 10 then lit 1.0 else lit 0.0)].

(** The forward pass: [output = bias; output += nf[i] * weights[i]]. *)
Definition score (features : TremorFeatures T) : T :=
  fold_left
    (fun output i =>
       output + at_ (normalizedFeatures features) i * at_ weights i)
    (seq 0 10) bias.

(** [classifyTremor(features)]. *)
Definition classifyTremor (features : TremorFeatures T) : Severity :=
  let output := score features in
  if output >? lit 0.7 then severe
  else if output >? lit 0.4 then moderate
  else if output >? lit 0.1 then mild
  else normal.

(** [generateInsights(features, classification)]. *)
Definition generateInsights (features : TremorFeatures T)
           (classification : Severity) : AIInsights T :=
  let confidence := stdMin (lit 0.95) (lit 0.7 + entropy features / lit 20.0) in
  match classification with
  | severe =>
    mkInsights classification confidence
      ["Contact healthcare provider immediately";
       "Monitor for medication effectiveness";
       "Consider DBS evaluation if persistent"]
      "Rapid progression likely - immediate intervention recommended"
  | moderate =>
    mkInsights classification confidence
      ["Continue current medication regimen";
       "Monitor for pattern changes";
       "Consider physical therapy"]
      "Stable with potential slow progression"
  | mild =>
    mkInsights classification confidence
      ["Regular monitoring recommended";
       "Maintain healthy lifestyle";
       "Watch for progression indicators"]
      "Early stage - monitor closely"
  | normal =>
    mkInsights classification confidence
      ["Continue normal activities";
       "Regular check-ups recommended";
       "No immediate concerns"]
      "Normal variation - no progression detected"
  end.

(** The smoothing of [processTremorData]: mean and RMS amplitude are
    averaged with the previous window, the other fields pass through. *)
Definition smooth (prev features : TremorFeatures T) : TremorFeatures T :=
  mkFeatures
    (lit 0.8 * meanAmplitude prev + lit 0.2 * meanAmplitude features)
    (lit 0.8 * rmsAmplitude prev + lit 0.2 * rmsAmplitude features)
    (dominantFrequency features) (frequencyPower features)
    (spectralCentroid features) (zeroCrossingRate features)
    (signalEnergy features) (entropy features).

(** [min(100.0f, max(0.0f, rms * 10 + freq * 2))]. *)
Definition severityOf (features : TremorFeatures T) : T :=
  stdMin (ofZ 100)
         (stdMax (ofZ 0)
                 (rmsAmplitude features * ofZ 10
                  + dominantFrequency features * ofZ 2)).

(** Classification and payload of an already smoothed feature vector. *)
Definition payloadOf (features : TremorFeatures T) : Payload T :=
  let classification := classifyTremor features in
  let insights := generateInsights features classification in
  mkPayload (dominantFrequency features) (rmsAmplitude features)
            (severityOf features) insights.

Definition zeroFeatures : TremorFeatures T :=
  mkFeatures (ofZ 0) (ofZ 0) (ofZ 0) (ofZ 0)
             (ofZ 0) (ofZ 0) (ofZ 0) (ofZ 0).

End Features.
End Firmware.

(** ** The recurrence of the specification *)

(** State of a direct-form biquad: the last two inputs and the last two
    outputs. *)
Record Biquad (T : Type) : Type :=
  mkBiquad { x1 : T; x2 : T; y1 : T; y2 : T }.

Section Recurrence.
Context {T : Type} `{Arith T}.
Local Open Scope num_scope.

(** [y[n] = b0 x[n] + b1 x[n-1] + b2 x[n-2] - a1 y[n-1] - a2 y[n-2]]. *)
Definition iirStep (s : Biquad T) (x : T) : Biquad T * T :=
  let y := b0 * x + b1 * x1 s + b2 * x2 s - a1 * y1 s - a2 * y2 s in
  (mkBiquad x (x1 s) y (y1 s), y).

Fixpoint iirRun (s : Biquad T) (signal : list T) : list T :=
  match signal with
  | [] => []
  | x :: rest => let (s', y) := iirStep s x in y :: iirRun s' rest
  end.

Definition iirRecurrence (signal : list T) : list T :=
  iirRun (mkBiquad (ofZ 0) (ofZ 0) (ofZ 0) (ofZ 0)) signal.
End Recurrence.

(** ** Auxiliary definitions for the proofs *)

(** Read the class operations at the real instance. *)
Ltac to_R :=
  change (@add R RArith) with Rplus in *;
  change (@sub R RArith) with Rminus in *;
  change (@mul R RArith) with Rmult in *;
  change (@div R RArith) with Rdiv in *;
  change (@ltb R RArith) with Rltb in *;
  change (@leb R RArith) with Rleb in *;
  change (@eqb R RArith) with Reqb in *;
  change (@fabs R RArith) with Rabs in *;
  change (@fsqrt R RArith) with R_sqrt.sqrt in *;
  change (@ofZ R RArith) with IZR in *;
  change (@lit R RArith) with Q2R in *;
  change (@fcos R RTransc) with Rtrigo_def.cos in *;
  change (@fsin R RTransc) with Rtrigo_def.sin in *;
  change (@flog R RTransc) with ln in *;
  change (@pi R RTransc) with PI in *.

(** Decimal literals read over the reals: [Q2R q] becomes the reduced
    fraction, an integer where the literal is one. *)
Ltac lit1 :=
  match goal with
  | |- context [Q2R ?q] =>
    let q' := eval vm_compute in (Qred q) in
    lazymatch q' with
    | Qmake ?n 1%positive =>
      replace (Q2R q) with (IZR n)
        by (unfold Q2R; cbn [Qnum Qden]; lra)
    | Qmake ?n ?d =>
      replace (Q2R q) with (Rdiv (IZR n) (IZR (Zpos d)))
        by (unfold Q2R; cbn [Qnum Qden]; lra)
    end
  end.

Ltac lits := repeat lit1; unfold Q2R in *; cbn [Qnum Qden] in *.

Section ThreeTaps.
Local Open Scope R_scope.

(** A three-tap filter on the inputs alone, [p] and [q] being the two
    previous inputs. *)
Fixpoint firRun (c0 c1 c2 : R) (p q : R) (signal : list R) : list R :=
  match signal with
  | [] => []
  | x :: rest => (c0 * x + c1 * p + c2 * q) :: firRun c0 c1 c2 x p rest
  end.
End ThreeTaps.

(** ** The formulas of the specification *)

Section SpecFormulas.
Local Open Scope R_scope.

(** [clamp(x, lo, hi)]. *)
Definition clamp (x lo hi : R) : R := Rmin hi (Rmax lo x).

(** [sum of weight_i * normalizedFeature_i]. *)
Fixpoint weightedSum (ws xs : list R) : R :=
  match ws, xs with
  | w :: ws', x :: xs' => w * x + weightedSum ws' xs'
  | _, _ => 0
  end.

(** A firmware feature vector with another dominant frequency. *)
Definition withFrequency (features : Firmware.TremorFeatures R) (f : R)
  : Firmware.TremorFeatures R :=
  Firmware.mkFeatures
    (Firmware.meanAmplitude features)
    (Firmware.rmsAmplitude features)
    f
    (Firmware.frequencyPower features)
    (Firmware.spectralCentroid features)
    (Firmware.zeroCrossingRate features)
    (Firmware.signalEnergy features)
    (Firmware.entropy features).

(** Every normalised feature other than the frequency at the middle, 0.5,
    of its scale. *)
Definition midRange (f : R) : Firmware.TremorFeatures R :=
  Firmware.mkFeatures 50 50 f 500 5 0.05 5000 5.

(** The firmware feature vector of a steady window of constant value 200,
    in exact arithmetic: mean and RMS amplitude 200, energy 200 * 200, an
    empty spectrum in the band, no zero crossing and entropy 0. *)
Definition steady200 : Firmware.TremorFeatures R :=
  Firmware.mkFeatures 200 200 0 0 0 0 40000 0.
End SpecFormulas.

Section ScanInvariant.
Local Open Scope R_scope.

(** What the scan maintains when no magnitude is negative. *)
Definition scanInv (freqOf : nat -> R) (s : Scan R) : Prop :=
  0 <= maxMagnitude s /\ 0 <= totalPower s
  /\ (dominantFreqBin s = 0%nat
      \/ (inBand (freqOf (dominantFreqBin s)) = true /\ 0 < totalPower s)).
End ScanInvariant.

Section SineWindow.
Local Open Scope R_scope.

(** The window of the round-trip test: 256 samples of a 5 Hz sine wave of
    amplitude [amp], sampled at 200 Hz. *)
Definition sineWindow (amp : R) : list R :=
  map (fun t => amp * Rtrigo_def.sin (2 * PI * 5 * INR t / 200)) (seq 0 256).

(** [f 0 + ... + f (n - 1)], added in this order. *)
Fixpoint rsum (f : nat -> R) (n : nat) : R :=
  match n with
  | O => 0
  | S m => rsum f m + f m
  end.

(** Sums of the sines and of the cosines of the multiples of an angle, over
    the 256 sample indices. *)
Definition sinSum (g : R) : R := rsum (fun t => Rtrigo_def.sin (g * INR t)) 256.
Definition cosSum (g : R) : R := rsum (fun t => Rtrigo_def.cos (g * INR t)) 256.

(** Squared modulus of the geometric sum at angle [g]. *)
Definition modulus2 (g : R) : R := Rsqr (sinSum g) + Rsqr (cosSum g).

(** Four times the squared magnitude of bin [kf] of the unit sine window. *)
Definition binPower (kf : R) : R :=
  Rsqr (sinSum (PI / 20 + PI * kf / 128) + sinSum (PI / 20 - PI * kf / 128))
  + Rsqr (cosSum (PI / 20 + PI * kf / 128) - cosSum (PI / 20 - PI * kf / 128)).
End SineWindow.

(** The binary64 values that are NaN or infinite. *)
Definition nonFiniteSF (x : spec_float) : Prop :=
  match x with
  | S754_nan | S754_infinity _ => True
  | _ => False
  end.

(** * The rest of the pipeline *)

(** [Math.log10]. *)
Class Log10 (T : Type) : Type := { flog10 : T -> T }.

#[export] Instance RLog10 : Log10 R := {| flog10 := fun x => (ln x / ln 10)%R |}.

(** ** Server: [processRawEMGData] of emgProcessing *)

Module ServerQuality.

Inductive DataQuality : Type := excellent | good | fair | poor.

(** The [qualityMetrics] object. *)
Record QualityMetrics (T : Type) : Type := mkQuality {
  signalToNoiseRatio : T;
  dataQuality : DataQuality;
  saturationLevel : T
}.

(** The value [processRawEMGData] returns. *)
Record Processed (T : Type) : Type := mkProcessed {
  rawSignal : list T;
  filteredSignal : list T;
  features : Server.ProcessedEMGFeatures T;
  qualityMetrics : QualityMetrics T
}.

Section Quality.
Context {T : Type} `{Arith T} `{Transc T} `{Log10 T}.
Local Open Scope num_scope.

(** [array.indexOf(val)]: the first index whose element is [=== val]. *)
Fixpoint indexOf (val : T) (array : list T) : option nat :=
  match array with
  | [] => None
  | x :: rest => if x =? val then Some 0%nat else option_map S (indexOf val rest)
  end.

(** [val - filteredSignal[rawSignal.indexOf(val)]].  The search fails only
    for a sample that is not equal to itself, NaN, and then the difference
    is NaN whatever is subtracted. *)
Definition residual (rawSignal filteredSignal : list T) (val : T) : T :=
  match indexOf val rawSignal with
  | Some i => val - at_ filteredSignal i
  | None => val - val
  end.

(** [filteredSignal.reduce((sum, val) => sum + val * val, 0) / length]. *)
Definition signalPowerOf (filteredSignal : list T) : T :=
  fold_left (fun sum val => sum + val * val) filteredSignal (ofZ 0)
  / ofNat (length filteredSignal).

(** [rawSignal.reduce((sum, val) => sum + Math.pow(residual, 2), 0) / length]. *)
Definition noisePowerOf (rawSignal filteredSignal : list T) : T :=
  fold_left
    (fun sum val =>
       sum + residual rawSignal filteredSignal val
             * residual rawSignal filteredSignal val)
    rawSignal (ofZ 0)
  / ofNat (length rawSignal).

(** [noisePower > 0 ? 10 * Math.log10(signalPower / noisePower) : 0]. *)
Definition snrOf (signalPower noisePower : T) : T :=
  if noisePower >? ofZ 0
  then ofZ 10 * flog10 (signalPower / noisePower)
  else ofZ 0.

(** The three tests on the signal-to-noise ratio; ['poor'] is the initial
    value. *)
Definition qualityOf (signalToNoiseRatio : T) : DataQuality :=
  if signalToNoiseRatio >? ofZ 20 then excellent
  else if signalToNoiseRatio >? ofZ 10 then good
  else if signalToNoiseRatio >? ofZ 5 then fair
  else poor.

(** [-Infinity], the value of [Math.max()] without arguments. *)
Definition negInfinity : T := ofZ (-1) / ofZ 0.

(** [Math.max(...values)]. *)
Definition maxOf (values : list T) : T := fold_left mathMax values negInfinity.

(** [(Math.max(...rawSignal.map(Math.abs)) / 4095) * 100]. *)
Definition saturationOf (rawSignal : list T) : T :=
  maxOf (map fabs rawSignal) / ofZ 4095 * ofZ 100.

(** [processRawEMGData(emgData)], from the fields [emgData] and
    [sampleRate] of its argument. *)
Definition processRawEMGData (emgData : list T) (sampleRate : T) : Processed T :=
  let rawSignal := emgData in
  let filteredSignal := Server.applyBandpassFilter rawSignal in
  let features := Server.extractEMGFeatures filteredSignal sampleRate in
  let signalPower := signalPowerOf filteredSignal in
  let noisePower := noisePowerOf rawSignal filteredSignal in
  let signalToNoiseRatio := snrOf signalPower noisePower in
  mkProcessed rawSignal filteredSignal features
              (mkQuality signalToNoiseRatio (qualityOf signalToNoiseRatio)
                         (saturationOf rawSignal)).
End Quality.
End ServerQuality.

(** ** Server: the pure parts of the tremor route *)

Module Route.

(** The keys of [severityMap] in [handleLocalClassification]. *)
Inductive LocalClass : Type := NORMAL | MILD | MODERATE | SEVERE.

Section Route.
Context {T : Type} `{Arith T}.
Local Open Scope string_scope.
Local Open Scope num_scope.

(** [severityMap[classification]] for the four keys of the map. *)
Definition severityMap (classification : LocalClass) : T :=
  match classification with
  | NORMAL => ofZ 10
  | MILD => ofZ 25
  | MODERATE => ofZ 50
  | SEVERE => ofZ 80
  end.

(** The key strings of [severityMap]. *)
Definition className (classification : LocalClass) : string :=
  match classification with
  | NORMAL => "NORMAL"
  | MILD => "MILD"
  | MODERATE => "MODERATE"
  | SEVERE => "SEVERE"
  end.

(** [getRecommendationsForClassification(classification)]. *)
Definition getRecommendationsForClassification (classification : string)
  : list string :=
  if String.eqb classification "SEVERE" then
    ["Contact healthcare provider immediately";
     "Monitor for medication effectiveness";
     "Consider DBS evaluation if persistent"]
  else if String.eqb classification "MODERATE" then
    ["Continue current medication regimen";
     "Monitor for pattern changes";
     "Consider physical therapy"]
  else if String.eqb classification "MILD" then
    ["Regular monitoring recommended";
     "Maintain healthy lifestyle";
     "Watch for progression indicators"]
  else
    ["Continue normal activities";
     "Regular check-ups recommended";
     "No immediate concerns"].

(** [getProgressionForClassification(classification)]. *)
Definition getProgressionForClassification (classification : string) : string :=
  if String.eqb classification "SEVERE" then
    "Rapid progression likely - immediate intervention recommended"
  else if String.eqb classification "MODERATE" then
    "Stable with potential slow progression"
  else if String.eqb classification "MILD" then
    "Early stage - monitor closely"
  else
    "Normal variation - no progression detected".

(** The four filters of [severityDistribution] in the statistics of GET. *)
Definition isNormal (severityIndex : T) : bool := severityIndex <? ofZ 20.
Definition isMild (severityIndex : T) : bool :=
  (severityIndex >=? ofZ 20) && (severityIndex <? ofZ 40).
Definition isModerate (severityIndex : T) : bool :=
  (severityIndex >=? ofZ 40) && (severityIndex <? ofZ 70).
Definition isSevere (severityIndex : T) : bool := severityIndex >=? ofZ 70.

(** [severityDistribution]: the four counts, normal, mild, moderate,
    severe. *)
Definition severityDistribution (indices : list T) : nat * nat * nat * nat :=
  (length (filter isNormal indices), length (filter isMild indices),
   length (filter isModerate indices), length (filter isSevere indices)).

(** [length > 0 ? reduce((acc, item) => acc + item, 0) / length : 0]: the
    averages of the statistics. *)
Definition average (values : list T) : T :=
  match values with
  | [] => ofZ 0
  | _ => fold_left (fun acc item => acc + item) values (ofZ 0)
         / ofNat (length values)
  end.

(** [Math.max(0, Math.min(1, aiInsights.confidence || 0.5))] of
    [handleProcessedData]; [None] is a missing field. *)
Definition validatedConfidence (confidence : option T) : T :=
  let given :=
    match confidence with
    | Some c => if (c =? ofZ 0) || isNaN c then lit 0.5 else c
    | None => lit 0.5
    end in
  mathMax (ofZ 0) (mathMin (ofZ 1) given).
End Route.
End Route.

(** ** Firmware: the sampling loop *)

Module FirmwareLoop.
Section Loop.
Context {T : Type} `{Arith T} `{Transc T}.
Local Open Scope num_scope.




(** [getBatteryLevel()], as a function of [millis()]. *)
Definition getBatteryLevel (millis : T) : T :=
  lit 85.0 + fsin (millis / lit 10000.0) * lit 5.0.
End Loop.
End FirmwareLoop.

(** ** Inputs and iterations used in the statements *)

Section Inputs.
Local Open Scope R_scope.

(** The sequence 1, -1, 1, -1, ... of length [n]. *)
Definition alternating (n : nat) : list R :=
  map (fun i => if Nat.even i then 1 else -1) (seq 0 n).

(** [k] successive windows with the same features, smoothed from [prev]. *)
Definition smoothed (k : nat) (prev features : Firmware.TremorFeatures R)
  : Firmware.TremorFeatures R :=
  Nat.iter k (fun p => Firmware.smooth p features) prev.

(** The label of the statistics bucket a severity index is counted in. *)
Definition bucketOf (severityIndex : R) : Severity :=
  if Route.isNormal severityIndex then normal
  else if Route.isMild severityIndex then mild
  else if Route.isModerate severityIndex then moderate
  else severe.

(** The lower-case label stored for a key of [severityMap]. *)
Definition localLabel (c : Route.LocalClass) : Severity :=
  match c with
  | Route.NORMAL => normal
  | Route.MILD => mild
  | Route.MODERATE => moderate
  | Route.SEVERE => severe
  end.
End Inputs.

(** * Properties *)

Unset Implicit Arguments.

(** ** Reading the generic code over the reals *)

Lemma Rltb_true (x y : R) : Rltb x y = true <-> (x < y)%R.
Proof. unfold Rltb. destruct (Rlt_dec x y); split; intros; try discriminate; tauto. Qed.

Lemma Rltb_false (x y : R) : Rltb x y = false <-> (y <= x)%R.
Proof.
  unfold Rltb. destruct (Rlt_dec x y); split; intros; try discriminate; try reflexivity; lra.
Qed.

Lemma Rleb_true (x y : R) : Rleb x y = true <-> (x <= y)%R.
Proof. unfold Rleb. destruct (Rle_dec x y); split; intros; try discriminate; tauto. Qed.

Lemma Rleb_false (x y : R) : Rleb x y = false <-> (y < x)%R.
Proof.
  unfold Rleb. destruct (Rle_dec x y); split; intros; try discriminate; try reflexivity; lra.
Qed.

Lemma Reqb_refl (x : R) : Reqb x x = true.
Proof. unfold Reqb. destruct (Req_dec_T x x); congruence. Qed.

(** ** Non-finite binary64 values *)

Section NonFinite.
Local Open Scope float_scope.

Lemma SFcompare_refl_finite s m e :
  SFcompare (S754_finite s m e) (S754_finite s m e) = Some Eq.
Proof.
  simpl. destruct s; rewrite Z.compare_refl, Pos.compare_cont_refl; reflexivity.
Qed.

Lemma is_finite_false (x : float) :
  PrimFloat.is_finite x = false <-> nonFiniteSF (Prim2SF x).
Proof.
  unfold PrimFloat.is_finite, PrimFloat.is_nan, PrimFloat.is_infinity.
  rewrite !FloatAxioms.eqb_spec, FloatAxioms.abs_spec.
  change (Prim2SF infinity) with (S754_infinity false).
  destruct (Prim2SF x) as [s| s | | s m e]; simpl; unfold SFeqb;
    try rewrite SFcompare_refl_finite; simpl; try destruct s; simpl;
    split; intros; try discriminate; try tauto.
  all: try (rewrite Z.compare_refl, Pos.compare_cont_refl in *; simpl in *; try discriminate; try tauto).
Qed.

Lemma nonFinite_mul_l x y :
  PrimFloat.is_finite x = false -> PrimFloat.is_finite (x * y) = false.
Proof.
  intros Hx. apply is_finite_false. apply is_finite_false in Hx. rewrite mul_spec. unfold SF64mul. revert Hx.
  destruct (Prim2SF x), (Prim2SF y); simpl; tauto.
Qed.

Lemma nonFinite_mul_r x y :
  PrimFloat.is_finite y = false -> PrimFloat.is_finite (x * y) = false.
Proof.
  intros Hx. apply is_finite_false. apply is_finite_false in Hx. rewrite mul_spec. unfold SF64mul. revert Hx.
  destruct (Prim2SF x), (Prim2SF y); simpl; tauto.
Qed.

Lemma nonFinite_add_l x y :
  PrimFloat.is_finite x = false -> PrimFloat.is_finite (x + y) = false.
Proof.
  intros Hx. apply is_finite_false. apply is_finite_false in Hx. rewrite add_spec. unfold SF64add. revert Hx.
  destruct (Prim2SF x) as [[]|[]| |], (Prim2SF y) as [[]|[]| |]; simpl; tauto.
Qed.

Lemma nonFinite_add_r x y :
  PrimFloat.is_finite y = false -> PrimFloat.is_finite (x + y) = false.
Proof.
  intros Hx. apply is_finite_false. apply is_finite_false in Hx. rewrite add_spec. unfold SF64add. revert Hx.
  destruct (Prim2SF x) as [[]|[]| |], (Prim2SF y) as [[]|[]| |]; simpl; tauto.
Qed.

Lemma nonFinite_sub_l x y :
  PrimFloat.is_finite x = false -> PrimFloat.is_finite (x - y) = false.
Proof.
  intros Hx. apply is_finite_false. apply is_finite_false in Hx. rewrite sub_spec. unfold SF64sub. revert Hx.
  destruct (Prim2SF x) as [[]|[]| |], (Prim2SF y) as [[]|[]| |]; simpl; tauto.
Qed.

Lemma nonFinite_sub_r x y :
  PrimFloat.is_finite y = false -> PrimFloat.is_finite (x - y) = false.
Proof.
  intros Hx. apply is_finite_false. apply is_finite_false in Hx. rewrite sub_spec. unfold SF64sub. revert Hx.
  destruct (Prim2SF x) as [[]|[]| |], (Prim2SF y) as [[]|[]| |]; simpl; tauto.
Qed.
End NonFinite.

(** ** The signal filter *)

Section FilterTaps.
Local Open Scope R_scope.

(** The server filter feeds its "denominator" coefficients with the input
    history: it is the three-tap filter 0.0976, 1.138, -0.2357. *)
Lemma server_filter_is_fir (s : History R) (signal : list R) :
  runFilter Server.filter s signal
  = firRun 0.0976 1.138 (-0.2357) (h0 s) (h1 s) signal.
Proof.
  revert s. induction signal as [|x rest IH]; intros s; [reflexivity|].
  cbn [runFilter firRun Server.filter]. rewrite IH. cbn [h0 h1 h2].
  f_equal. unfold b0, b1, b2, a1, a2. to_R. lits. lra.
Qed.

(** The firmware filter multiplies its feedback coefficients by zero: it is
    the three-tap filter 0.0976, 0.1952, 0.0976. *)
Lemma firmware_filter_is_fir (s : History R) (signal : list R) :
  runFilter Firmware.applyBandpassFilter s signal
  = firRun 0.0976 0.1952 0.0976 (h0 s) (h1 s) signal.
Proof.
  revert s. induction signal as [|x rest IH]; intros s; [reflexivity|].
  cbn [runFilter firRun Firmware.applyBandpassFilter]. rewrite IH. cbn [h0 h1 h2].
  f_equal. unfold b0, b1, b2, a1, a2. to_R. lits. lra.
Qed.

(** C1: on the stream 1, 0 the recurrence of the specification answers
    0.0976 and then 0.1952 + 0.9428 * 0.0976 = 0.28721728 (feedback of the
    previous output), whereas the server filter answers 1.138 and the
    firmware filter 0.1952: neither feeds back an output. *)
Theorem filter_feedback_misses_outputs :
  iirRecurrence [1; 0] = [0.0976; 0.28721728]
  /\ Server.applyBandpassFilter [1; 0] = [0.0976; 1.138]
  /\ runFilter Firmware.applyBandpassFilter reset [1; 0] = [0.0976; 0.1952].
Proof.
  unfold Server.applyBandpassFilter.
  rewrite server_filter_is_fir, firmware_filter_is_fir.
  cbn [firRun reset h0 h1 iirRecurrence iirRun iirStep x1 x2 y1 y2].
  unfold b0, b1, b2, a1, a2. to_R. lits.
  repeat split; repeat (f_equal; try lra).
Qed.
End FilterTaps.

Section FilterNonFinite.
Local Open Scope float_scope.

Lemma server_filter_nonfinite_h0 (s : History float) :
  PrimFloat.is_finite (h0 s) = false ->
  PrimFloat.is_finite
    (b0 * h0 s + b1 * h1 s + b2 * h2 s - a1 * h1 s - a2 * h2 s)%num = false.
Proof.
  intros Hx. cbn [add sub mul FloatArith].
  do 2 apply nonFinite_sub_l. do 2 apply nonFinite_add_l.
  now apply nonFinite_mul_r.
Qed.

Lemma server_filter_nonfinite_h1 (s : History float) :
  PrimFloat.is_finite (h1 s) = false ->
  PrimFloat.is_finite
    (b0 * h0 s + b1 * h1 s + b2 * h2 s - a1 * h1 s - a2 * h2 s)%num = false.
Proof.
  intros Hx. cbn [add sub mul FloatArith].
  do 2 apply nonFinite_sub_l. apply nonFinite_add_l, nonFinite_add_r.
  now apply nonFinite_mul_r.
Qed.

Lemma server_filter_nonfinite_h2 (s : History float) :
  PrimFloat.is_finite (h2 s) = false ->
  PrimFloat.is_finite
    (b0 * h0 s + b1 * h1 s + b2 * h2 s - a1 * h1 s - a2 * h2 s)%num = false.
Proof.
  intros Hx. cbn [add sub mul FloatArith].
  do 2 apply nonFinite_sub_l. apply nonFinite_add_r.
  now apply nonFinite_mul_r.
Qed.

(** C6 (as the claim states it): a NaN sample is not treated as zero: a
    fresh filter answers NaN to it, and 0 to the sample 0. *)
Lemma nan_sample_not_treated_as_zero :
  ~ (forall (s : History float) (x : float),
        PrimFloat.is_finite x = false ->
        Server.filter s x = Server.filter s PrimFloat.zero).
Proof.
  intros Hclaim.
  specialize (Hclaim reset PrimFloat.nan eq_refl).
  apply (f_equal (fun r => PrimFloat.is_nan (snd r))) in Hclaim.
  vm_compute in Hclaim. discriminate.
Qed.

(** C6 (amended): the filter has no guard.  A NaN or infinite sample is
    stored in the history as it is, the output of that call and of the next
    two calls is NaN or infinite, and from the fourth call on the outputs
    are those of the stream in which 0 replaces the bad sample. *)
Theorem nonfinite_sample_passes_through
        (s : History float) (x y1 y2 y3 : float) (rest : list float) :
  PrimFloat.is_finite x = false ->
  let out := runFilter Server.filter s (x :: y1 :: y2 :: y3 :: rest) in
  fst (Server.filter s x) = mkHistory x (h0 s) (h1 s)
  /\ PrimFloat.is_finite (nth 0 out PrimFloat.zero) = false
  /\ PrimFloat.is_finite (nth 1 out PrimFloat.zero) = false
  /\ PrimFloat.is_finite (nth 2 out PrimFloat.zero) = false
  /\ skipn 3 out
     = skipn 3 (runFilter Server.filter s
                          (PrimFloat.zero :: y1 :: y2 :: y3 :: rest)).
Proof.
  intros Hx out. subst out.
  cbn [runFilter Server.filter fst nth skipn h0 h1 h2].
  repeat split.
  - apply (server_filter_nonfinite_h0 (mkHistory x (h0 s) (h1 s))), Hx.
  - apply (server_filter_nonfinite_h1 (mkHistory y1 x (h0 s))), Hx.
  - apply (server_filter_nonfinite_h2 (mkHistory y2 y1 x)), Hx.
Qed.

Lemma nonfinite_sample_passes_through_witness :
  let out :=
    runFilter Server.filter reset [PrimFloat.infinity; 1; 2; 3; 4] in
  fst (Server.filter reset PrimFloat.infinity)
  = mkHistory PrimFloat.infinity (ofZ 0) (ofZ 0)
  /\ PrimFloat.is_finite (nth 0 out PrimFloat.zero) = false
  /\ PrimFloat.is_finite (nth 1 out PrimFloat.zero) = false
  /\ PrimFloat.is_finite (nth 2 out PrimFloat.zero) = false
  /\ skipn 3 out
     = skipn 3 (runFilter Server.filter reset [PrimFloat.zero; 1; 2; 3; 4]).
Proof.
  apply (nonfinite_sample_passes_through reset PrimFloat.infinity 1 2 3 [4]).
  reflexivity.
Defined.
End FilterNonFinite.

(** ** Clamps and comparisons over the reals *)

Section RealReading.
Local Open Scope R_scope.

Lemma isNaN_R (x : R) : isNaN x = false.
Proof. unfold isNaN. to_R. now rewrite Reqb_refl. Qed.

Lemma stdMin_R (a b : R) : stdMin a b = Rmin a b.
Proof.
  unfold stdMin. to_R. unfold Rmin.
  destruct (Rltb b a) eqn:E; [apply Rltb_true in E | apply Rltb_false in E];
    destruct (Rle_dec a b); lra.
Qed.

Lemma stdMax_R (a b : R) : stdMax a b = Rmax a b.
Proof.
  unfold stdMax. to_R. unfold Rmax.
  destruct (Rltb a b) eqn:E; [apply Rltb_true in E | apply Rltb_false in E];
    destruct (Rle_dec a b); lra.
Qed.

Lemma mathMin_R (a b : R) : mathMin a b = Rmin a b.
Proof. unfold mathMin. rewrite !isNaN_R. apply stdMin_R. Qed.

Lemma mathMax_R (a b : R) : mathMax a b = Rmax a b.
Proof. unfold mathMax. rewrite !isNaN_R. apply stdMax_R. Qed.

Lemma clamp_bounds (x : R) : 0 <= clamp x 0 100 <= 100.
Proof.
  unfold clamp, Rmin, Rmax.
  destruct (Rle_dec 0 x); destruct (Rle_dec 100 _); lra.
Qed.

Lemma clamp_inside (x : R) : 0 <= x <= 100 -> clamp x 0 100 = x.
Proof.
  intros Hx. unfold clamp, Rmin, Rmax.
  destruct (Rle_dec 0 x); destruct (Rle_dec 100 _); lra.
Qed.

Lemma clamp_above (x : R) : 100 <= x -> clamp x 0 100 = 100.
Proof.
  intros Hx. unfold clamp, Rmin, Rmax.
  destruct (Rle_dec 0 x); destruct (Rle_dec 100 _); lra.
Qed.
End RealReading.

(** ** The weighted-score classifier *)

Section Classifier.
Local Open Scope R_scope.
Import Firmware.



Lemma classify_cases (features : TremorFeatures R) :
  let s := score features in
  (classifyTremor features = severe <-> s > 0.7)
  /\ (classifyTremor features = moderate <-> 0.4 < s <= 0.7)
  /\ (classifyTremor features = mild <-> 0.1 < s <= 0.4)
  /\ (classifyTremor features = normal <-> s <= 0.1).
Proof.
  intros s. unfold classifyTremor. fold s.
  to_R. lits.
  destruct (Rltb _ s) eqn:E7; [apply Rltb_true in E7 | apply Rltb_false in E7].
  { repeat split; intros; try discriminate; lra. }
  destruct (Rltb _ s) eqn:E4; [apply Rltb_true in E4 | apply Rltb_false in E4].
  { repeat split; intros; try discriminate; lra. }
  destruct (Rltb _ s) eqn:E1; [apply Rltb_true in E1 | apply Rltb_false in E1].
  { repeat split; intros; try discriminate; lra. }
  repeat split; intros; try discriminate; lra.
Qed.

End Classifier.

Section ClassifierMonotone.
Local Open Scope R_scope.
Import Firmware.

Lemma score_withFrequency_mono (features : TremorFeatures R) (f1 f2 : R) :
  f1 <= f2 -> f2 <= 8 \/ 8 < f1 ->
  score (withFrequency features f1) <= score (withFrequency features f2).
Proof.
  intros Hle Hside.
  assert (Hs : f2 <= 8 /\ f1 <= 8 \/ 8 < f1 /\ 8 < f2) by (destruct Hside; [left|right]; lra).
  clear Hside.
  unfold score, normalizedFeatures, weights, bias, withFrequency.
  cbn [seq fold_left at_ nth meanAmplitude rmsAmplitude dominantFrequency
       frequencyPower spectralCentroid zeroCrossingRate signalEnergy entropy].
  to_R. lits.
  destruct (Rltb _ (rmsAmplitude features));
    destruct (Rleb _ f1) eqn:A1; destruct (Rleb f1 _) eqn:B1;
    destruct (Rleb _ f2) eqn:A2; destruct (Rleb f2 _) eqn:B2;
    cbn [andb];
    repeat match goal with
           | E : Rleb _ _ = true |- _ => apply Rleb_true in E
           | E : Rleb _ _ = false |- _ => apply Rleb_false in E
           end; destruct Hs; lra.
Qed.

Lemma classify_mono_score (a b : TremorFeatures R) :
  score a <= score b ->
  (ordinal (classifyTremor a) <= ordinal (classifyTremor b))%nat.
Proof.
  intros Hle. unfold classifyTremor. to_R. lits.
  repeat match goal with
         | |- context [Rltb ?x ?y] =>
           let E := fresh "E" in
           destruct (Rltb x y) eqn:E;
             [apply Rltb_true in E | apply Rltb_false in E]
         end; cbn [ordinal]; try lia; exfalso; lra.
Qed.

Lemma classify_midRange_8_9 :
  classifyTremor (midRange 8) = severe /\ classifyTremor (midRange 9) = moderate.
Proof.
  split.
  - apply (proj1 (classify_cases (midRange 8))). cbv zeta.
    unfold score, normalizedFeatures, weights, bias, midRange.
    cbn [seq fold_left at_ nth meanAmplitude rmsAmplitude dominantFrequency
         frequencyPower spectralCentroid zeroCrossingRate signalEnergy entropy].
    to_R. lits.
    replace (Rltb 10 50) with true by (symmetry; apply Rltb_true; lra).
    replace (Rleb 3 8) with true by (symmetry; apply Rleb_true; lra).
    replace (Rleb 8 8) with true by (symmetry; apply Rleb_true; lra).
    cbn [andb]. lra.
  - apply (proj1 (proj2 (classify_cases (midRange 9)))). cbv zeta.
    unfold score, normalizedFeatures, weights, bias, midRange.
    cbn [seq fold_left at_ nth meanAmplitude rmsAmplitude dominantFrequency
         frequencyPower spectralCentroid zeroCrossingRate signalEnergy entropy].
    to_R. lits.
    replace (Rltb 10 50) with true by (symmetry; apply Rltb_true; lra).
    replace (Rleb 3 9) with true by (symmetry; apply Rleb_true; lra).
    replace (Rleb 9 8) with false by (symmetry; apply Rleb_false; lra).
    cbn [andb]. lra.
Qed.

(** C8 (as the claim states it): with the other features at mid-range,
    raising the dominant frequency from 8 Hz to 9 Hz, inside 0..12 Hz, lowers
    the label from severe to moderate. *)
Lemma classifyTremor_drops_past_8 :
  ~ (forall f1 f2 : R,
        0 <= f1 -> f1 <= f2 -> f2 <= 12 ->
        (ordinal (classifyTremor (midRange f1))
         <= ordinal (classifyTremor (midRange f2)))%nat).
Proof.
  intros Hclaim.
  specialize (Hclaim 8 9 ltac:(lra) ltac:(lra) ltac:(lra)).
  destruct classify_midRange_8_9 as [H8 H9].
  rewrite H8, H9 in Hclaim. cbn in Hclaim. lia.
Qed.

(** C8 (amended): with every other feature fixed, at any values, raising
    the dominant frequency never lowers the label as long as both
    frequencies are at most 8 Hz, the upper end of the tremor-frequency
    indicator, or both are above it. *)
Theorem classifyTremor_monotone_within_indicator
        (features : TremorFeatures R) (f1 f2 : R) :
  f1 <= f2 -> f2 <= 8 \/ 8 < f1 ->
  (ordinal (classifyTremor (withFrequency features f1))
   <= ordinal (classifyTremor (withFrequency features f2)))%nat.
Proof.
  intros Hle Hside. apply classify_mono_score.
  now apply score_withFrequency_mono.
Qed.

Lemma classifyTremor_monotone_within_indicator_witness :
  3 <= 8 /\ (8 <= 8 \/ 8 < 3)
  /\ (ordinal (classifyTremor (withFrequency (midRange 0) 3))
      <= ordinal (classifyTremor (withFrequency (midRange 0) 8)))%nat.
Proof.
  split; [lra|]. split; [left; lra|].
  apply (classifyTremor_monotone_within_indicator (midRange 0) 3 8);
    [lra | left; lra].
Defined.
End ClassifierMonotone.

(** ** Severity index *)

Section SeverityIndex.
Local Open Scope R_scope.

Lemma firmware_severityOf (features : Firmware.TremorFeatures R) :
  Firmware.severityOf features
  = clamp (Firmware.rmsAmplitude features * 10
           + Firmware.dominantFrequency features * 2) 0 100.
Proof.
  unfold Firmware.severityOf. rewrite stdMin_R, stdMax_R.
  reflexivity.
Qed.

Lemma server_severityOf (r f z : R) :
  Server.severityOf r f z
  = clamp (r / 100 * 50 + f / 10 * 30 + z * 100 * 20) 0 100.
Proof.
  unfold Server.severityOf. rewrite mathMin_R, mathMax_R.
  reflexivity.
Qed.

Lemma server_severityIndex (signal : list R) (sampleRate : R) :
  let f := Server.extractEMGFeatures signal sampleRate in
  Server.severityIndex f
  = Server.severityOf (Server.rmsAmplitude f)
                              (Server.dominantFrequency f)
                              (Server.zeroCrossingRate f).
Proof.
  destruct signal as [|x rest]; cbv zeta.
  - cbn [Server.extractEMGFeatures Server.zeroFeatures
         Server.severityIndex Server.rmsAmplitude
         Server.dominantFrequency Server.zeroCrossingRate].
    rewrite server_severityOf. to_R. rewrite clamp_inside; lra.
  - reflexivity.
Qed.



End SeverityIndex.

(** ** Severity class against severity index *)

Section ClassAgainstIndex.
Local Open Scope R_scope.

Lemma firmware_zero_features :
  Firmware.severityOf (Firmware.zeroFeatures (T:=R)) = 0
  /\ Firmware.classifyTremor (Firmware.zeroFeatures (T:=R))
     = moderate.
Proof.
  split.
  - rewrite firmware_severityOf. unfold Firmware.zeroFeatures.
    cbn [Firmware.rmsAmplitude Firmware.dominantFrequency].
    to_R. rewrite clamp_inside; lra.
  - apply (proj1 (proj2 (classify_cases Firmware.zeroFeatures))).
    cbv zeta.
    unfold Firmware.score, Firmware.normalizedFeatures,
      Firmware.weights, Firmware.bias,
      Firmware.zeroFeatures.
    cbn [seq fold_left at_ nth Firmware.meanAmplitude
         Firmware.rmsAmplitude Firmware.dominantFrequency
         Firmware.frequencyPower Firmware.spectralCentroid
         Firmware.zeroCrossingRate Firmware.signalEnergy
         Firmware.entropy].
    to_R. lits.
    replace (Rltb 10 0) with false by (symmetry; apply Rltb_false; lra).
    replace (Rleb 3 0) with false by (symmetry; apply Rleb_false; lra).
    cbn [andb]. lra.
Qed.

Lemma firmware_steady200 :
  Firmware.severityOf steady200 = 100
  /\ Firmware.classifyTremor steady200 = normal.
Proof.
  split.
  - rewrite firmware_severityOf. unfold steady200.
    cbn [Firmware.rmsAmplitude Firmware.dominantFrequency].
    rewrite clamp_above; lra.
  - apply (proj2 (proj2 (proj2 (classify_cases steady200)))).
    cbv zeta.
    unfold Firmware.score, Firmware.normalizedFeatures,
      Firmware.weights, Firmware.bias, steady200.
    cbn [seq fold_left at_ nth Firmware.meanAmplitude
         Firmware.rmsAmplitude Firmware.dominantFrequency
         Firmware.frequencyPower Firmware.spectralCentroid
         Firmware.zeroCrossingRate Firmware.signalEnergy
         Firmware.entropy].
    to_R. lits.
    replace (Rltb 10 200) with true by (symmetry; apply Rltb_true; lra).
    replace (Rleb 3 0) with false by (symmetry; apply Rleb_false; lra).
    cbn [andb]. lra.
Qed.

(** C9 (as the claim states it): in the firmware, the all-zero feature
    vector is labelled moderate with severity index 0, and the features of a
    steady amplitude of 200 are labelled normal with severity index 100. *)
Lemma firmware_class_not_monotone_in_index :
  ~ (forall a b : Firmware.TremorFeatures R,
        Firmware.severityIndex (Firmware.payloadOf a)
        < Firmware.severityIndex (Firmware.payloadOf b) ->
        (ordinal (Firmware.pattern
                    (Firmware.aiInsights (Firmware.payloadOf a)))
         <= ordinal (Firmware.pattern
                       (Firmware.aiInsights
                          (Firmware.payloadOf b))))%nat).
Proof.
  intros Hclaim.
  specialize (Hclaim Firmware.zeroFeatures steady200).
  cbn [Firmware.payloadOf Firmware.severityIndex
       Firmware.aiInsights] in Hclaim.
  destruct firmware_zero_features as [Hi0 Hc0].
  destruct firmware_steady200 as [Hi1 Hc1].
  rewrite Hi0, Hi1, Hc0, Hc1 in Hclaim.
  cbn in Hclaim. specialize (Hclaim ltac:(lra)). lia.
Qed.

Lemma server_pattern (features : Server.ProcessedEMGFeatures R) :
  Server.pattern (Server.generateEMGInsights features)
  = fst (Server.classOf features).
Proof.
  unfold Server.generateEMGInsights.
  destruct (Server.classOf features) as [[] c]; reflexivity.
Qed.

(** C9 (amended): on the server, where [generateEMGInsights] thresholds the
    severity index itself (70, 40, 20), a record with a higher index never
    has a less severe label.  The firmware computes label and index from
    different formulas and has no such relation. *)
Theorem server_class_monotone_in_index
        (a b : Server.ProcessedEMGFeatures R) :
  Server.severityIndex a <= Server.severityIndex b ->
  (ordinal (Server.pattern (Server.generateEMGInsights a))
   <= ordinal (Server.pattern (Server.generateEMGInsights b)))%nat.
Proof.
  intros Hle. rewrite !server_pattern. unfold Server.classOf. to_R.
  repeat match goal with
         | |- context [Rltb ?x ?y] =>
           let E := fresh "E" in
           destruct (Rltb x y) eqn:E;
             [apply Rltb_true in E | apply Rltb_false in E]
         end; cbn [fst ordinal]; try lia; exfalso; lra.
Qed.

Lemma server_class_monotone_in_index_witness :
  let a := Server.extractEMGFeatures [] 200 in
  let b := Server.extractEMGFeatures [10] 200 in
  Server.severityIndex a <= Server.severityIndex b
  /\ (ordinal (Server.pattern (Server.generateEMGInsights a))
      <= ordinal (Server.pattern (Server.generateEMGInsights b)))%nat.
Proof.
  cbv zeta.
  assert (H : Server.severityIndex (Server.extractEMGFeatures [] 200)
              <= Server.severityIndex
                   (Server.extractEMGFeatures [10] 200)).
  { rewrite (server_severityIndex [10] 200), server_severityOf.
    cbn [Server.extractEMGFeatures Server.zeroFeatures
         Server.severityIndex].
    to_R. apply clamp_bounds. }
  split; [exact H|].
  exact (server_class_monotone_in_index _ _ H).
Defined.
End ClassAgainstIndex.

(** ** The empty signal *)

(** C10: for the empty signal the server's feature extraction returns the
    record whose ten fields are all 0, whatever the sample rate and the
    number type. *)
Theorem extractEMGFeatures_empty
        (T : Type) (A : Arith T) (Tr : Transc T) (sampleRate : T) :
  let f := Server.extractEMGFeatures [] sampleRate in
  Server.frequency f = ofZ 0
  /\ Server.amplitude f = ofZ 0
  /\ Server.severityIndex f = ofZ 0
  /\ Server.dominantFrequency f = ofZ 0
  /\ Server.spectralCentroid f = ofZ 0
  /\ Server.signalEnergy f = ofZ 0
  /\ Server.zeroCrossingRate f = ofZ 0
  /\ Server.rmsAmplitude f = ofZ 0
  /\ Server.meanAmplitude f = ofZ 0
  /\ Server.signalVariance f = ofZ 0.
Proof. cbv zeta. repeat split. Qed.

(** ** The band scan *)

Section BandScan.
Local Open Scope R_scope.

Lemma inBand_R (f : R) : inBand f = true <-> 3 <= f <= 12.
Proof.
  unfold inBand. to_R. rewrite andb_true_iff, !Rleb_true. tauto.
Qed.

Lemma scanStep_inv (freqOf : nat -> R) (magnitude : list R) (s : Scan R) (i : nat) :
  (forall j, 0 <= at_ magnitude j) ->
  scanInv freqOf s -> scanInv freqOf (scanStep freqOf magnitude s i).
Proof.
  intros Hm (Hmax & Htot & Hbin). unfold scanStep.
  destruct (inBand (freqOf i)) eqn:Eb; [|repeat split; assumption].
  to_R. pose proof (Hm i) as Hi.
  destruct (Rltb (maxMagnitude s) (at_ magnitude i)) eqn:E;
    [apply Rltb_true in E | apply Rltb_false in E];
    unfold scanInv; cbn [maxMagnitude totalPower dominantFreqBin].
  - repeat split; try lra. right. split; [assumption | lra].
  - repeat split; try lra. destruct Hbin as [H0 | [Hb Hp]]; [now left|].
    right. split; [assumption | lra].
Qed.

Lemma scan_fold_inv (freqOf : nat -> R) (magnitude : list R)
      (l : list nat) (s : Scan R) :
  (forall j, 0 <= at_ magnitude j) ->
  scanInv freqOf s ->
  scanInv freqOf (fold_left (scanStep freqOf magnitude) l s).
Proof.
  intros Hm. revert s. induction l as [|i l IH]; intros s Hs; [exact Hs|].
  cbn [fold_left]. apply IH. now apply scanStep_inv.
Qed.

Lemma scanBand_inv (freqOf : nat -> R) (magnitude : list R) (bins : nat) :
  (forall j, 0 <= at_ magnitude j) ->
  scanInv freqOf (scanBand freqOf magnitude bins).
Proof.
  intros Hm. unfold scanBand. apply scan_fold_inv; [exact Hm|].
  unfold scanInv. cbn [maxMagnitude totalPower dominantFreqBin]. to_R.
  repeat split; try lra. now left.
Qed.

Lemma binMagnitude_nonneg (data : list R) (n : nat) (sampleRate freq : R) :
  0 <= binMagnitude data n sampleRate freq.
Proof.
  unfold binMagnitude. destruct (fold_left _ _ _) as [re im].
  to_R. apply sqrt_pos.
Qed.

Lemma at_map_nonneg (f : nat -> R) (l : list nat) (j : nat) :
  (forall k, 0 <= f k) -> 0 <= at_ (map f l) j.
Proof.
  intros Hf. unfold at_. to_R.
  destruct (nth_in_or_default j (map f l) 0) as [Hin | ->]; [|lra].
  apply in_map_iff in Hin. destruct Hin as (k & <- & _). apply Hf.
Qed.
End BandScan.

(** ** Firmware features *)

Section FirmwareInvariants.
Local Open Scope R_scope.
Import Firmware.














End FirmwareInvariants.

(** ** Server features *)

Section ServerInvariants.
Local Open Scope R_scope.
Import Server.

Lemma orZero_R (f : R) : orZero f = f.
Proof.
  unfold orZero. rewrite isNaN_R, orb_false_r. to_R. unfold Reqb.
  destruct (Req_dec_T f 0); congruence.
Qed.

Lemma server_scan_inv (signal : list R) (sampleRate : R) :
  let magnitude := fst (simpleFFT signal sampleRate) in
  let frequencyArray := snd (simpleFFT signal sampleRate) in
  scanInv (at_ frequencyArray)
          (scanBand (at_ frequencyArray) magnitude (length magnitude)).
Proof.
  cbv zeta. apply scanBand_inv. intros j.
  unfold simpleFFT. cbn [fst]. apply at_map_nonneg.
  intros k. apply binMagnitude_nonneg.
Qed.

Lemma server_first_frequency (signal : list R) (sampleRate : R) :
  at_ (snd (simpleFFT signal sampleRate)) 0 = 0.
Proof.
  unfold simpleFFT. cbn [snd]. unfold at_. to_R.
  destruct (binCount (length signal)) as [|m]; [reflexivity|].
  cbn [seq map nth]. unfold ofNat. cbn [Z.of_nat]. to_R.
  unfold Rdiv. now rewrite !Rmult_0_l.
Qed.

Lemma server_nth_error_at (l : list R) (i : nat) (f : R) :
  nth_error l i = Some f -> at_ l i = f.
Proof. intros Hf. unfold at_. now apply nth_error_nth. Qed.

(** The dominant frequency of a non-empty signal, from the scan. *)
Lemma server_dominantFrequency_scan (x : R) (rest : list R) (sampleRate : R) :
  let signal := x :: rest in
  let magnitude := fst (simpleFFT signal sampleRate) in
  let frequencyArray := snd (simpleFFT signal sampleRate) in
  let bin :=
    dominantFreqBin (scanBand (at_ frequencyArray) magnitude (length magnitude)) in
  dominantFrequency (extractEMGFeatures signal sampleRate) = 0
  \/ dominantFrequency (extractEMGFeatures signal sampleRate)
     = at_ frequencyArray bin.
Proof.
  cbv zeta. unfold extractEMGFeatures.
  destruct (simpleFFT (x :: rest) sampleRate) as [magnitude frequencyArray] eqn:E.
  cbn [dominantFrequency fst snd].
  destruct (nth_error frequencyArray _) as [f|] eqn:En.
  - right. rewrite orZero_R. symmetry. now apply server_nth_error_at.
  - left. reflexivity.
Qed.



Lemma server_empty_band (signal : list R) (sampleRate : R) :
  let f := extractEMGFeatures signal sampleRate in
  bandPower signal sampleRate = 0 ->
  spectralCentroid f = 0 /\ dominantFrequency f = 0.
Proof.
  cbv zeta. destruct signal as [|x rest]; [split; reflexivity|].
  intros Hp. split.
  - revert Hp. unfold bandPower, extractEMGFeatures.
    destruct (simpleFFT (x :: rest) sampleRate) as [magnitude frequencyArray].
    cbn [spectralCentroid]. intros ->. to_R.
    destruct (Rltb 0 0) eqn:E; [apply Rltb_true in E; lra | reflexivity].
  - destruct (server_dominantFrequency_scan x rest sampleRate) as [H0 | Hf];
      [exact H0|].
    cbv zeta in Hf. rewrite Hf.
    destruct (server_scan_inv (x :: rest) sampleRate)
      as (_ & _ & [Hb | [_ Hpos]]).
    + rewrite Hb. apply server_first_frequency.
    + exfalso. revert Hp Hpos. unfold bandPower.
      destruct (simpleFFT (x :: rest) sampleRate) as [magnitude frequencyArray].
      cbn [fst snd]. lra.
Qed.
End ServerInvariants.

(** ** Invariants of the feature vector *)

Section FeatureInvariants.
Local Open Scope R_scope.





End FeatureInvariants.

(** ** Empty band and silent window *)

Section ZeroDivisors.
Local Open Scope R_scope.


(** In binary64 the quotient 0 / 0 of the entropy loop is NaN, fails the
    test [normalized > 0.001] and leaves the entropy as it was, whatever the
    math library. *)
Lemma entropyStep_nan_discarded (Tr : Transc float) (e : float) :
  Firmware.entropyStep 0%float e 0%float = e.
Proof. reflexivity. Qed.



End ZeroDivisors.

(** ** Sums of sines and cosines *)

Section TrigSums.
Local Open Scope R_scope.

Lemma rsum_ext (f g : nat -> R) (n : nat) :
  (forall t, (t < n)%nat -> f t = g t) -> rsum f n = rsum g n.
Proof.
  induction n as [|n IH]; intros Hfg; [reflexivity|].
  cbn [rsum]. rewrite IH, (Hfg n) by auto with arith. reflexivity.
Qed.

Lemma rsum_plus (f g : nat -> R) (n : nat) :
  rsum (fun t => f t + g t) n = rsum f n + rsum g n.
Proof. induction n as [|n IH]; cbn [rsum]; [lra | rewrite IH; lra]. Qed.

Lemma rsum_scal (c : R) (f : nat -> R) (n : nat) :
  rsum (fun t => c * f t) n = c * rsum f n.
Proof. induction n as [|n IH]; cbn [rsum]; [lra | rewrite IH; lra]. Qed.

(** Lagrange's identities, in telescoped form. *)
Lemma sum_sin_telescope (g : R) (n : nat) :
  2 * sin (g / 2) * rsum (fun t => sin (g * INR t)) n
  = cos (g / 2) - cos ((INR n - 1 / 2) * g).
Proof.
  induction n as [|n IH].
  - cbn [rsum INR]. replace ((0 - 1 / 2) * g) with (- (g / 2)) by lra.
    rewrite cos_neg. lra.
  - cbn [rsum]. rewrite Rmult_plus_distr_l, IH, S_INR.
    replace ((INR n - 1 / 2) * g) with (g * INR n - g / 2) by lra.
    replace ((INR n + 1 - 1 / 2) * g) with (g * INR n + g / 2) by lra.
    rewrite cos_minus, cos_plus. lra.
Qed.

Lemma sum_cos_telescope (g : R) (n : nat) :
  2 * sin (g / 2) * rsum (fun t => cos (g * INR t)) n
  = sin ((INR n - 1 / 2) * g) + sin (g / 2).
Proof.
  induction n as [|n IH].
  - cbn [rsum INR]. replace ((0 - 1 / 2) * g) with (- (g / 2)) by lra.
    rewrite sin_neg. lra.
  - cbn [rsum]. rewrite Rmult_plus_distr_l, IH, S_INR.
    replace ((INR n - 1 / 2) * g) with (g * INR n - g / 2) by lra.
    replace ((INR n + 1 - 1 / 2) * g) with (g * INR n + g / 2) by lra.
    rewrite sin_minus, sin_plus. lra.
Qed.

Lemma sin_cos_unit (x : R) : sin x * sin x + cos x * cos x = 1.
Proof. pose proof (sin2_cos2 x) as H. unfold Rsqr in H. exact H. Qed.

(** The squared modulus of the geometric sum of [exp (i g t)]. *)
Lemma dirichlet_modulus (g : R) (n : nat) :
  let S := rsum (fun t => sin (g * INR t)) n in
  let C := rsum (fun t => cos (g * INR t)) n in
  sin (g / 2) * sin (g / 2) * (S * S + C * C)
  = sin (INR n * g / 2) * sin (INR n * g / 2).
Proof.
  intros S C.
  pose proof (sum_sin_telescope g n) as HS. fold S in HS.
  pose proof (sum_cos_telescope g n) as HC. fold C in HC.
  set (a := g / 2) in *. set (th := (INR n - 1 / 2) * g) in *.
  assert (H4 : 4 * (sin a * sin a * (S * S + C * C))
               = (cos a - cos th) * (cos a - cos th)
                 + (sin th + sin a) * (sin th + sin a)).
  { rewrite <- HS, <- HC. ring. }
  assert (Hsum : cos (a + th) = cos a * cos th - sin a * sin th)
    by apply cos_plus.
  replace (a + th) with (2 * (INR n * g / 2)) in Hsum by (subst a th; lra).
  rewrite cos_2a in Hsum.
  pose proof (sin_cos_unit a). pose proof (sin_cos_unit th).
  pose proof (sin_cos_unit (INR n * g / 2)).
  nra.
Qed.
End TrigSums.

(** ** The Fourier sum of the server as two plain sums *)

Section FourierSums.
Local Open Scope R_scope.

Lemma fourier_fold (data : list R) (sampleRate freq : R) (n : nat) :
  fold_left
    (fun '(real, imag) t =>
       let angle := (ofZ (-2) * pi * freq * ofNat t / sampleRate)%num in
       ((real + at_ data t * fcos angle)%num,
        (imag + at_ data t * fsin angle)%num))
    (seq 0 n) (ofZ 0, ofZ 0)
  = (rsum (fun t => at_ data t * cos (-2 * PI * freq * INR t / sampleRate)) n,
     rsum (fun t => at_ data t * sin (-2 * PI * freq * INR t / sampleRate)) n).
Proof.
  induction n as [|n IH]; [reflexivity|].
  rewrite seq_S, fold_left_app, IH. cbn [fold_left rsum Nat.add].
  unfold ofNat. to_R. rewrite <- INR_IZR_INZ. reflexivity.
Qed.

Lemma binMagnitude_sums (data : list R) (n : nat) (sampleRate freq : R) :
  binMagnitude data n sampleRate freq
  = sqrt (Rsqr (rsum (fun t => at_ data t
                               * cos (-2 * PI * freq * INR t / sampleRate)) n)
          + Rsqr (rsum (fun t => at_ data t
                                 * sin (-2 * PI * freq * INR t / sampleRate)) n)).
Proof.
  unfold binMagnitude. rewrite fourier_fold. to_R. reflexivity.
Qed.

Lemma sineWindow_at (amp : R) (t : nat) :
  (t < 256)%nat -> at_ (sineWindow amp) t = amp * sin (PI / 20 * INR t).
Proof.
  intros Ht. unfold at_, sineWindow. to_R.
  set (f := fun t : nat => amp * sin (2 * PI * 5 * INR t / 200)).
  rewrite (nth_indep _ 0 (f 0%nat))
    by (rewrite length_map, length_seq; exact Ht).
  rewrite (map_nth f), seq_nth by exact Ht.
  subst f. cbn [Nat.add]. f_equal. f_equal. lra.
Qed.

(** The two sums of bin [k] of the sine window, in terms of the sums of
    sines and cosines at the difference and at the sum of the two angular
    steps. *)
Lemma sine_real_part (amp kf : R) :
  let a := PI / 20 in
  let b := PI * kf / 128 in
  rsum (fun t => at_ (sineWindow amp) t
                 * cos (-2 * PI * (kf * 200 / 256) * INR t / 200)) 256
  = amp / 2 * (rsum (fun t => sin ((a + b) * INR t)) 256
               + rsum (fun t => sin ((a - b) * INR t)) 256).
Proof.
  intros a b. rewrite <- rsum_plus, <- rsum_scal.
  apply rsum_ext. intros t Ht. rewrite sineWindow_at by exact Ht. fold a.
  replace (-2 * PI * (kf * 200 / 256) * INR t / 200) with (- (b * INR t))
    by (subst b; lra).
  rewrite cos_neg.
  replace ((a + b) * INR t) with (a * INR t + b * INR t) by lra.
  replace ((a - b) * INR t) with (a * INR t - b * INR t) by lra.
  rewrite sin_plus, sin_minus. lra.
Qed.

Lemma sine_imag_part (amp kf : R) :
  let a := PI / 20 in
  let b := PI * kf / 128 in
  rsum (fun t => at_ (sineWindow amp) t
                 * sin (-2 * PI * (kf * 200 / 256) * INR t / 200)) 256
  = amp / 2 * (rsum (fun t => cos ((a + b) * INR t)) 256
               + rsum (fun t => - cos ((a - b) * INR t)) 256).
Proof.
  intros a b. rewrite <- rsum_plus, <- rsum_scal.
  apply rsum_ext. intros t Ht. rewrite sineWindow_at by exact Ht. fold a.
  replace (-2 * PI * (kf * 200 / 256) * INR t / 200) with (- (b * INR t))
    by (subst b; lra).
  rewrite sin_neg.
  replace ((a + b) * INR t) with (a * INR t + b * INR t) by lra.
  replace ((a - b) * INR t) with (a * INR t - b * INR t) by lra.
  rewrite cos_plus, cos_minus. lra.
Qed.
End FourierSums.

(** ** Magnitudes of the bins of the sine window *)

Section SineSpectrum.
Local Open Scope R_scope.

Lemma rsum_opp (f : nat -> R) (n : nat) :
  rsum (fun t => - f t) n = - rsum f n.
Proof. induction n as [|n IH]; cbn [rsum]; [lra | rewrite IH; lra]. Qed.

Lemma sine_bin_magnitude (amp kf : R) :
  binMagnitude (sineWindow amp) 256 200 (kf * 200 / 256)
  = sqrt (Rsqr (amp / 2) * binPower kf).
Proof.
  rewrite binMagnitude_sums.
  rewrite (sine_real_part amp kf), (sine_imag_part amp kf). cbv zeta.
  rewrite rsum_opp. f_equal. unfold binPower, sinSum, cosSum, Rsqr. ring.
Qed.

Lemma binPower_nonneg (kf : R) : 0 <= binPower kf.
Proof. unfold binPower. pose proof (Rle_0_sqr). apply Rplus_le_le_0_compat; auto. Qed.

Lemma sine_bin_lt (amp k1 k2 : R) :
  amp <> 0 -> binPower k1 < binPower k2 ->
  binMagnitude (sineWindow amp) 256 200 (k1 * 200 / 256)
  < binMagnitude (sineWindow amp) 256 200 (k2 * 200 / 256).
Proof.
  intros Ha Hlt. rewrite !sine_bin_magnitude.
  assert (Hq : 0 < Rsqr (amp / 2)) by (apply Rlt_0_sqr; lra).
  apply sqrt_lt_1_alt. split.
  - apply Rmult_le_pos; [lra | apply binPower_nonneg].
  - apply Rmult_lt_compat_l; assumption.
Qed.

(** The cross terms cost at most a twentieth of the main lobe and twenty
    times the image lobe. *)
Lemma binPower_bounds (kf : R) :
  let P := modulus2 (PI / 20 - PI * kf / 128) in
  let Q := modulus2 (PI / 20 + PI * kf / 128) in
  19 / 20 * P - 19 * Q <= binPower kf <= 21 / 20 * P + 21 * Q.
Proof.
  cbv zeta. unfold binPower, modulus2, Rsqr.
  set (sp := sinSum (PI / 20 + PI * kf / 128)).
  set (sm := sinSum (PI / 20 - PI * kf / 128)).
  set (cp := cosSum (PI / 20 + PI * kf / 128)).
  set (cm := cosSum (PI / 20 - PI * kf / 128)).
  pose proof (Rle_0_sqr (sm - 20 * sp)) as H1.
  pose proof (Rle_0_sqr (sm + 20 * sp)) as H2.
  pose proof (Rle_0_sqr (cm - 20 * cp)) as H3.
  pose proof (Rle_0_sqr (cm + 20 * cp)) as H4.
  unfold Rsqr in *. split; lra.
Qed.

Lemma modulus2_dirichlet (g : R) :
  Rsqr (sin (g / 2)) * modulus2 g = Rsqr (sin (128 * g)).
Proof.
  pose proof (dirichlet_modulus g 256) as H. cbv zeta in H.
  unfold modulus2, sinSum, cosSum, Rsqr.
  replace (INR 256 * g / 2) with (128 * g) in H.
  - rewrite <- H. ring.
  - rewrite INR_IZR_INZ. change (Z.of_nat 256) with 256%Z. lra.
Qed.

Lemma modulus2_nonneg (g : R) : 0 <= modulus2 g.
Proof.
  unfold modulus2. apply Rplus_le_le_0_compat; apply Rle_0_sqr.
Qed.

Lemma sin_sqr_shift (x : R) (k : nat) :
  Rsqr (sin (x + INR k * PI)) = Rsqr (sin x).
Proof.
  induction k as [|k IH].
  - cbn [INR]. f_equal. f_equal. lra.
  - rewrite S_INR.
    replace (x + (INR k + 1) * PI) with (x + INR k * PI + PI) by lra.
    rewrite neg_sin, <- Rsqr_neg. exact IH.
Qed.

(** [sin x >= 9/10 x] on [0, 1/2]. *)
Lemma sin_lower (x : R) : 0 <= x <= 1 / 2 -> 9 / 10 * x <= sin x.
Proof.
  intros [H0 H1].
  assert (Hpi : x <= PI) by (pose proof PI2_3_2; lra).
  destruct (SIN x H0 Hpi) as [Hlb _].
  unfold sin_lb, sin_approx, sin_term in Hlb.
  cbn [sum_f_R0 Nat.mul Nat.add pow fact INR] in Hlb.
  assert (Hx3 : x * (x * x) <= x * (1 / 4)) by nra.
  assert (Hx5 : 0 <= x * (x * (x * (x * x)))).
  { repeat apply Rmult_le_pos; lra. }
  assert (Hx7 : x * (x * (x * (x * (x * (x * x))))) <= x * (x * (x * (x * x)))).
  { apply Rmult_le_compat_l; [lra|]. apply Rmult_le_compat_l; [lra|].
    assert (0 <= x * (x * x)) by (repeat apply Rmult_le_pos; lra).
    nra. }
  lra.
Qed.
End SineSpectrum.

Section SinePeak.
Local Open Scope R_scope.

Lemma sin_sqr_lower (x : R) :
  - (1 / 2) <= x <= 1 / 2 -> 81 / 100 * (x * x) <= Rsqr (sin x).
Proof.
  intros [Hlo Hhi]. unfold Rsqr.
  destruct (Rle_dec 0 x) as [Hx | Hx].
  - pose proof (sin_lower x (conj Hx Hhi)). nra.
  - assert (Hn : 0 <= - x <= 1 / 2) by lra.
    pose proof (sin_lower (- x) Hn) as H. rewrite sin_neg in H. nra.
Qed.

Lemma sin_sqr_upper (x : R) : 0 < x <= 1 / 2 -> Rsqr (sin x) <= x * x.
Proof.
  intros [H0 H1]. unfold Rsqr.
  pose proof (sin_lt_x x H0). pose proof (sin_lower x (conj (Rlt_le _ _ H0) H1)).
  nra.
Qed.

Lemma sin_32pi5_pos : 0 < Rsqr (sin (32 * PI / 5)).
Proof.
  apply Rlt_0_sqr.
  replace (32 * PI / 5) with (2 * PI / 5 + 2 * INR 3 * PI) by (cbn [INR]; lra).
  rewrite sin_period. pose proof PI_RGT_0.
  apply Rgt_not_eq, sin_gt_0; lra.
Qed.

(** The numerators of the two lobes are the same for every integer bin. *)
Lemma lobe_numerators (k : nat) :
  Rsqr (sin (128 * (PI / 20 - PI * INR k / 128))) = Rsqr (sin (32 * PI / 5))
  /\ Rsqr (sin (128 * (PI / 20 + PI * INR k / 128))) = Rsqr (sin (32 * PI / 5)).
Proof.
  split.
  - rewrite <- (sin_sqr_shift (128 * (PI / 20 - PI * INR k / 128)) k).
    f_equal. f_equal. lra.
  - replace (128 * (PI / 20 + PI * INR k / 128))
      with (32 * PI / 5 + INR k * PI) by lra.
    apply sin_sqr_shift.
Qed.

(** Main lobe of a bin at distance at least 0.6 from 6.4, and image lobe of
    any bin of the band, against the common numerator. *)
Lemma lobes_off_peak (k : nat) :
  4 <= INR k <= 15 -> INR k <= 5 \/ 7 <= INR k ->
  let T := PI * PI in
  let s2 := Rsqr (sin (32 * PI / 5)) in
  81 / 100 * (9 / 1638400) * T * modulus2 (PI / 20 - PI * INR k / 128) <= s2
  /\ 81 / 100 * (169 / 102400) * T * modulus2 (PI / 20 + PI * INR k / 128) <= s2.
Proof.
  intros Hk Hoff T s2. pose proof PI_RGT_0 as Hp0. pose proof PI_4 as Hp4.
  destruct (lobe_numerators k) as [Hn1 Hn2]. fold s2 in Hn1, Hn2.
  set (kf := INR k) in *.
  split.
  - rewrite <- Hn1, <- modulus2_dirichlet.
    set (g := PI / 20 - PI * kf / 128).
    pose proof (modulus2_nonneg g) as HX.
    assert (Hg : - (1 / 2) <= g / 2 <= 1 / 2) by (subst g; split; nra).
    pose proof (sin_sqr_lower (g / 2) Hg) as Hs.
    assert (Hd : 9 / 1638400 * T <= g / 2 * (g / 2)).
    { subst g T.
      replace ((PI / 20 - PI * kf / 128) / 2 * ((PI / 20 - PI * kf / 128) / 2))
        with (PI * PI * ((32 / 5 - kf) * (32 / 5 - kf) / 65536)) by field.
      assert (9 / 25 <= (32 / 5 - kf) * (32 / 5 - kf)) by (destruct Hoff; nra).
      assert (0 < PI * PI) by nra. nra. }
    apply Rmult_le_compat_r; [exact HX|]. lra.
  - rewrite <- Hn2, <- modulus2_dirichlet.
    set (g := PI / 20 + PI * kf / 128).
    pose proof (modulus2_nonneg g) as HX.
    assert (Hg : - (1 / 2) <= g / 2 <= 1 / 2) by (subst g; split; nra).
    pose proof (sin_sqr_lower (g / 2) Hg) as Hs.
    assert (Hd : 169 / 102400 * T <= g / 2 * (g / 2)).
    { subst g T.
      replace ((PI / 20 + PI * kf / 128) / 2 * ((PI / 20 + PI * kf / 128) / 2))
        with (PI * PI * ((32 / 5 + kf) * (32 / 5 + kf) / 65536)) by field.
      assert (2704 / 25 <= (32 / 5 + kf) * (32 / 5 + kf)) by nra.
      assert (0 < PI * PI) by nra. nra. }
    apply Rmult_le_compat_r; [exact HX|]. lra.
Qed.

(** The two lobes of bin 6. *)
Lemma lobes_at_peak :
  let T := PI * PI in
  let s2 := Rsqr (sin (32 * PI / 5)) in
  s2 <= 1 / 409600 * T * modulus2 (PI / 20 - PI * 6 / 128)
  /\ 81 / 100 * (961 / 409600) * T * modulus2 (PI / 20 + PI * 6 / 128) <= s2.
Proof.
  intros T s2. pose proof PI_RGT_0 as Hp0. pose proof PI_4 as Hp4.
  destruct (lobe_numerators 6) as [Hn1 Hn2]. fold s2 in Hn1, Hn2.
  replace (INR 6) with 6 in Hn1, Hn2 by (cbn [INR]; lra).
  split.
  - rewrite <- Hn1, <- modulus2_dirichlet.
    set (g := PI / 20 - PI * 6 / 128).
    pose proof (modulus2_nonneg g) as HX.
    assert (Hg : 0 < g / 2 <= 1 / 2) by (subst g; split; lra).
    pose proof (sin_sqr_upper (g / 2) Hg) as Hs.
    assert (Hd : g / 2 * (g / 2) = 1 / 409600 * T) by (subst g T; field).
    apply Rmult_le_compat_r; [exact HX|]. lra.
  - rewrite <- Hn2, <- modulus2_dirichlet.
    set (g := PI / 20 + PI * 6 / 128).
    pose proof (modulus2_nonneg g) as HX.
    assert (Hg : - (1 / 2) <= g / 2 <= 1 / 2) by (subst g; split; lra).
    pose proof (sin_sqr_lower (g / 2) Hg) as Hs.
    assert (Hd : g / 2 * (g / 2) = 961 / 409600 * T) by (subst g T; field).
    apply Rmult_le_compat_r; [exact HX|]. lra.
Qed.

(** Bin 6 carries strictly more power than any other bin of the band. *)
Lemma binPower_peak (k : nat) :
  4 <= INR k <= 15 -> INR k <= 5 \/ 7 <= INR k ->
  binPower (INR k) < binPower 6.
Proof.
  intros Hk Hoff.
  destruct (lobes_off_peak k Hk Hoff) as [F1 F2].
  destruct lobes_at_peak as [F3 F4]. cbv zeta in F1, F2, F3, F4.
  pose proof (proj2 (binPower_bounds (INR k))) as Hup.
  pose proof (proj1 (binPower_bounds 6)) as Hlo. cbv zeta in Hup, Hlo.
  pose proof sin_32pi5_pos as Hs.
  assert (HT : 0 < PI * PI) by (pose proof PI_RGT_0; nra).
  apply (Rmult_lt_reg_l (PI * PI)); [exact HT|].
  set (X := modulus2 (PI / 20 - PI * INR k / 128)) in *.
  set (Y := modulus2 (PI / 20 + PI * INR k / 128)) in *.
  set (X6 := modulus2 (PI / 20 - PI * 6 / 128)) in *.
  set (Y6 := modulus2 (PI / 20 + PI * 6 / 128)) in *.
  set (s2 := Rsqr (sin (32 * PI / 5))) in *.
  assert (PI * PI * binPower (INR k) <= PI * PI * (21 / 20 * X + 21 * Y))
    by (apply Rmult_le_compat_l; lra).
  assert (PI * PI * (19 / 20 * X6 - 19 * Y6) <= PI * PI * binPower 6)
    by (apply Rmult_le_compat_l; lra).
  nra.
Qed.

Lemma binPower_peak_pos : 0 < binPower 6.
Proof.
  destruct lobes_at_peak as [F3 F4]. cbv zeta in F3, F4.
  pose proof (proj1 (binPower_bounds 6)) as Hlo. cbv zeta in Hlo.
  pose proof sin_32pi5_pos as Hs.
  assert (HT : 0 < PI * PI) by (pose proof PI_RGT_0; nra).
  apply (Rmult_lt_reg_l (PI * PI)); [exact HT|].
  set (X6 := modulus2 (PI / 20 - PI * 6 / 128)) in *.
  set (Y6 := modulus2 (PI / 20 + PI * 6 / 128)) in *.
  set (s2 := Rsqr (sin (32 * PI / 5))) in *.
  assert (PI * PI * (19 / 20 * X6 - 19 * Y6) <= PI * PI * binPower 6)
    by (apply Rmult_le_compat_l; lra).
  nra.
Qed.
End SinePeak.

(** ** The scan returns the strict maximum of the band *)

Section ScanArgmax.
Local Open Scope R_scope.
Variable freqOf : nat -> R.
Variable magnitude : list R.

Lemma scan_prefix_below (m : R) (l : list nat) (s : Scan R) :
  (forall i, In i l -> inBand (freqOf i) = true -> at_ magnitude i < m) ->
  maxMagnitude s < m ->
  maxMagnitude (fold_left (scanStep freqOf magnitude) l s) < m.
Proof.
  revert s. induction l as [|i l IH]; intros s Hl Hs; [exact Hs|].
  cbn [fold_left]. apply IH; [intros j Hj; apply Hl; now right|].
  unfold scanStep.
  destruct (inBand (freqOf i)) eqn:Eb; [|exact Hs].
  to_R. destruct (Rltb _ _); cbn [maxMagnitude]; [|exact Hs].
  apply Hl; [now left | exact Eb].
Qed.

Lemma scan_suffix_keeps (l : list nat) (s : Scan R) :
  (forall i, In i l -> inBand (freqOf i) = true ->
             at_ magnitude i <= maxMagnitude s) ->
  dominantFreqBin (fold_left (scanStep freqOf magnitude) l s)
  = dominantFreqBin s.
Proof.
  revert s. induction l as [|i l IH]; intros s Hl; [reflexivity|].
  cbn [fold_left].
  assert (Hstep : dominantFreqBin (scanStep freqOf magnitude s i)
                  = dominantFreqBin s
                  /\ maxMagnitude (scanStep freqOf magnitude s i)
                     = maxMagnitude s).
  { unfold scanStep. destruct (inBand (freqOf i)) eqn:Eb; [|split; reflexivity].
    to_R. destruct (Rltb _ _) eqn:E; [|split; reflexivity].
    apply Rltb_true in E. specialize (Hl i (or_introl eq_refl) Eb). lra. }
  destruct Hstep as [Hb Hm]. rewrite IH, Hb; [reflexivity|].
  intros j Hj Hjb. rewrite Hm. apply Hl; [now right | exact Hjb].
Qed.

Lemma scan_argmax (bins j : nat) :
  (1 <= j < bins)%nat ->
  inBand (freqOf j) = true ->
  0 < at_ magnitude j ->
  (forall i, (1 <= i < bins)%nat -> i <> j -> inBand (freqOf i) = true ->
             at_ magnitude i < at_ magnitude j) ->
  dominantFreqBin (scanBand freqOf magnitude bins) = j.
Proof.
  intros Hj Hjb Hpos Hmax. unfold scanBand.
  replace (bins - 1)%nat with ((j - 1) + S (bins - 1 - j))%nat by lia.
  rewrite seq_app, fold_left_app.
  replace (1 + (j - 1))%nat with j by lia.
  cbn [seq fold_left].
  set (s := fold_left _ (seq 1 (j - 1)) _).
  assert (Hs : maxMagnitude s < at_ magnitude j).
  { subst s. apply scan_prefix_below.
    - intros i Hi Hib. apply in_seq in Hi. apply Hmax; [lia | lia | exact Hib].
    - cbn [maxMagnitude]. to_R. exact Hpos. }
  assert (Hstep : scanStep freqOf magnitude s j
                  = mkScan (at_ magnitude j) j
                           (totalPower s + at_ magnitude j)).
  { unfold scanStep. rewrite Hjb. to_R.
    destruct (Rltb _ _) eqn:E; [reflexivity|].
    apply Rltb_false in E. lra. }
  rewrite Hstep, scan_suffix_keeps; [reflexivity|].
  intros i Hi Hib. cbn [maxMagnitude]. apply in_seq in Hi.
  left. apply Hmax; [lia | lia | exact Hib].
Qed.
End ScanArgmax.

(** ** The dominant frequency of the sine window *)

Section SineRoundTrip.
Local Open Scope R_scope.
Import Server.

Lemma sine_fft (amp : R) :
  simpleFFT (sineWindow amp) 200
  = (map (fun k => binMagnitude (sineWindow amp) 256 200
                                (IZR (Z.of_nat k) * 200 / 256)) (seq 0 128),
     map (fun k => IZR (Z.of_nat k) * 200 / 256) (seq 0 128)).
Proof.
  unfold simpleFFT.
  assert (Hlen : length (sineWindow amp) = 256%nat)
    by (unfold sineWindow; now rewrite length_map, length_seq).
  rewrite Hlen. change (binCount 256) with 128%nat.
  unfold ofNat. change (Z.of_nat 256) with 256%Z. to_R. reflexivity.
Qed.

Lemma at_map_seq (f : nat -> R) (n i : nat) :
  (i < n)%nat -> at_ (map f (seq 0 n)) i = f i.
Proof.
  intros Hi. unfold at_. to_R.
  rewrite (nth_indep _ 0 (f 0%nat)) by (now rewrite length_map, length_seq).
  rewrite (map_nth f), seq_nth by exact Hi. reflexivity.
Qed.

Lemma sine_band_bins (i : nat) :
  inBand (IZR (Z.of_nat i) * 200 / 256) = true -> (4 <= i <= 15)%nat.
Proof.
  intros Hb. apply inBand_R in Hb. rewrite <- INR_IZR_INZ in Hb.
  split.
  - apply INR_le. change (INR 4) with (1 + 1 + 1 + 1). 
    destruct (le_lt_dec 4 i) as [H4 | H4].
    + apply le_INR in H4. exact H4.
    + exfalso. assert (H3 : (i <= 3)%nat) by lia. apply le_INR in H3.
      cbn [INR] in H3. lra.
  - destruct (le_lt_dec i 15) as [H15 | H15]; [exact H15|].
    exfalso. assert (H16 : (16 <= i)%nat) by lia. apply le_INR in H16.
    rewrite (INR_IZR_INZ 16) in H16. change (Z.of_nat 16) with 16%Z in H16. lra.
Qed.

Lemma sine_dominant_bin (amp : R) :
  amp <> 0 ->
  let magnitude := fst (simpleFFT (sineWindow amp) 200) in
  let frequencyArray := snd (simpleFFT (sineWindow amp) 200) in
  dominantFreqBin (scanBand (at_ frequencyArray) magnitude (length magnitude))
  = 6%nat.
Proof.
  intros Hamp. cbv zeta. rewrite sine_fft. cbn [fst snd].
  rewrite length_map, length_seq.
  assert (Hf : forall i, (i < 128)%nat ->
                 at_ (map (fun k => IZR (Z.of_nat k) * 200 / 256) (seq 0 128)) i
                 = IZR (Z.of_nat i) * 200 / 256).
  { intros i Hi. now rewrite at_map_seq. }
  assert (Hm : forall i, (i < 128)%nat ->
                 at_ (map (fun k => binMagnitude (sineWindow amp) 256 200
                                      (IZR (Z.of_nat k) * 200 / 256))
                          (seq 0 128)) i
                 = binMagnitude (sineWindow amp) 256 200 (INR i * 200 / 256)).
  { intros i Hi. rewrite at_map_seq by exact Hi. now rewrite INR_IZR_INZ. }
  apply scan_argmax.
  - lia.
  - rewrite Hf by lia. apply inBand_R. change (Z.of_nat 6) with 6%Z. lra.
  - rewrite Hm by lia. replace (INR 6) with 6 by (cbn [INR]; lra).
    rewrite sine_bin_magnitude. apply sqrt_lt_R0.
    apply Rmult_lt_0_compat; [apply Rlt_0_sqr; lra | apply binPower_peak_pos].
  - intros i Hi Hne Hb. rewrite Hf in Hb by lia.
    apply sine_band_bins in Hb.
    rewrite !Hm by lia. replace (INR 6) with 6 by (cbn [INR]; lra).
    apply sine_bin_lt; [exact Hamp|].
    apply binPower_peak.
    + split.
      * destruct Hb as [Hb _]. apply le_INR in Hb.
        rewrite (INR_IZR_INZ 4) in Hb. change (Z.of_nat 4) with 4%Z in Hb. lra.
      * destruct Hb as [_ Hb]. apply le_INR in Hb.
        rewrite (INR_IZR_INZ 15) in Hb. change (Z.of_nat 15) with 15%Z in Hb. lra.
    + destruct (le_lt_dec i 5) as [H5 | H5].
      * left. apply le_INR in H5.
        rewrite (INR_IZR_INZ 5) in H5. change (Z.of_nat 5) with 5%Z in H5. lra.
      * right. assert (H7 : (7 <= i)%nat) by lia. apply le_INR in H7.
        rewrite (INR_IZR_INZ 7) in H7. change (Z.of_nat 7) with 7%Z in H7. lra.
Qed.

Lemma sine_dominantFrequency (amp : R) :
  amp <> 0 ->
  dominantFrequency (extractEMGFeatures (sineWindow amp) 200) = 6 * 200 / 256.
Proof.
  intros Hamp. pose proof (sine_dominant_bin amp Hamp) as Hbin. cbv zeta in Hbin.
  destruct (sineWindow amp) as [|x rest] eqn:Ew.
  { exfalso. apply (f_equal (@length R)) in Ew.
    unfold sineWindow in Ew. rewrite length_map, length_seq in Ew.
    discriminate. }
  unfold extractEMGFeatures.
  destruct (simpleFFT (x :: rest) 200) as [magnitude frequencyArray] eqn:Efft.
  cbn [dominantFrequency]. cbn [fst snd] in Hbin. rewrite Hbin.
  assert (Hfa : frequencyArray
                = map (fun k => IZR (Z.of_nat k) * 200 / 256) (seq 0 128)).
  { rewrite <- Ew, sine_fft in Efft. now inversion Efft. }
  rewrite Hfa.
  assert (Hn : nth_error (map (fun k => IZR (Z.of_nat k) * 200 / 256)
                              (seq 0 128)) 6
               = Some (6 * 200 / 256)).
  { reflexivity. }
  rewrite Hn, orZero_R. reflexivity.
Qed.
End SineRoundTrip.

Section SineRoundTripClaim.
Local Open Scope R_scope.

(** C4: for the window of 256 samples of a pure 5 Hz sine wave (of any
    non-zero amplitude) sampled at 200 Hz, the dominant frequency that the
    server's spectral analysis returns is that of bin 6, 4.6875 Hz, which
    lies within one bin width, 200/256 Hz, of 5 Hz. *)
Theorem sine_5Hz_dominant_frequency (amp : R) :
  amp <> 0 ->
  Rabs (Server.dominantFrequency
          (Server.extractEMGFeatures (sineWindow amp) 200) - 5)
  <= 200 / 256.
Proof.
  intros Hamp. rewrite (sine_dominantFrequency amp Hamp).
  unfold Rabs. destruct (Rcase_abs _); lra.
Qed.

Lemma sine_5Hz_dominant_frequency_witness :
  1 <> 0
  /\ Rabs (Server.dominantFrequency
             (Server.extractEMGFeatures (sineWindow 1) 200) - 5)
     <= 200 / 256.
Proof.
  split; [lra|]. apply (sine_5Hz_dominant_frequency 1). lra.
Defined.
End SineRoundTripClaim.

(** * Further properties *)

(** ** The filters as stream transformers *)

Section FilterStreams.
Context {T : Type} `{Arith T}.

Lemma runFilter_length (step : History T -> T -> History T * T)
      (s : History T) (signal : list T) :
  length (runFilter step s signal) = length signal.
Proof.
  revert s. induction signal as [|x rest IH]; intros s; [reflexivity|].
  cbn [runFilter]. destruct (step s x) as [s' y]. cbn [length]. now rewrite IH.
Qed.

Lemma runFilter_prefix (step : History T -> T -> History T * T)
      (s : History T) (signal more : list T) :
  firstn (length signal) (runFilter step s (signal ++ more))
  = runFilter step s signal.
Proof.
  revert s. induction signal as [|x rest IH]; intros s; [reflexivity|].
  cbn [runFilter app length]. destruct (step s x) as [s' y].
  cbn [firstn]. now rewrite IH.
Qed.

(** X1: the server's batch filter keeps the length of the signal and is
    causal: the outputs for a signal are the first outputs for any longer
    signal that starts with it, whatever the number type. *)
Theorem applyBandpassFilter_causal (signal more : list T) :
  length (Server.applyBandpassFilter signal) = length signal
  /\ firstn (length signal) (Server.applyBandpassFilter (signal ++ more))
     = Server.applyBandpassFilter signal.
Proof.
  unfold Server.applyBandpassFilter. split.
  - apply runFilter_length.
  - apply runFilter_prefix.
Qed.

Lemma server_run_two_slots (s s' : History T) (signal : list T) :
  h0 s = h0 s' -> h1 s = h1 s' ->
  runFilter Server.filter s signal = runFilter Server.filter s' signal.
Proof.
  intros E0 E1. destruct signal as [|x rest]; [reflexivity|].
  cbn [runFilter Server.filter h0 h1 h2]. now rewrite E0, E1.
Qed.

Lemma firmware_run_two_slots (s s' : History T) (signal : list T) :
  h0 s = h0 s' -> h1 s = h1 s' ->
  runFilter Firmware.applyBandpassFilter s signal
  = runFilter Firmware.applyBandpassFilter s' signal.
Proof.
  intros E0 E1. destruct signal as [|x rest]; [reflexivity|].
  cbn [runFilter Firmware.applyBandpassFilter h0 h1 h2]. now rewrite E0, E1.
Qed.

(** X2: both filters forget the state they start from after two samples:
    from the third output on, the outputs for a stream are the same from
    any two histories, so a filter that was not reset disturbs only the
    first two outputs. *)
Theorem filters_forget_initial_state (s s' : History T) (signal : list T) :
  skipn 2 (runFilter Server.filter s signal)
  = skipn 2 (runFilter Server.filter s' signal)
  /\ skipn 2 (runFilter Firmware.applyBandpassFilter s signal)
     = skipn 2 (runFilter Firmware.applyBandpassFilter s' signal).
Proof.
  destruct signal as [|a [|b rest]]; [split; reflexivity | split; reflexivity|].
  split.
  - cbn [runFilter Server.filter skipn h0 h1 h2].
    apply server_run_two_slots; reflexivity.
  - cbn [runFilter Firmware.applyBandpassFilter skipn h0 h1 h2].
    apply firmware_run_two_slots; reflexivity.
Qed.
End FilterStreams.

Section FilterResponse.
Local Open Scope R_scope.

Lemma firRun_nth (c0 c1 c2 p q : R) (signal : list R) (i : nat) :
  (i < length signal)%nat ->
  nth i (firRun c0 c1 c2 p q signal) 0
  = c0 * nth i signal 0
    + c1 * (match i with O => p | S j => nth j signal 0 end)
    + c2 * (match i with
            | O => q
            | S O => p
            | S (S j) => nth j signal 0
            end).
Proof.
  revert p q i. induction signal as [|x rest IH]; intros p q i Hi.
  - cbn [length] in Hi. lia.
  - destruct i as [|i]; [reflexivity|].
    cbn [firRun nth]. cbn [length] in Hi. rewrite IH by lia.
    destruct i as [|i]; reflexivity.
Qed.

Lemma firRun_length (c0 c1 c2 p q : R) (signal : list R) :
  length (firRun c0 c1 c2 p q signal) = length signal.
Proof.
  revert p q. induction signal as [|x rest IH]; intros p q; [reflexivity|].
  cbn [firRun length]. now rewrite IH.
Qed.

(** X3: on a constant input [c] both filters settle at once: from the third
    output on the server filter returns 0.9999 * c and the firmware filter
    0.3904 * c, the sums of their three taps. *)
Theorem filters_constant_input (c : R) (n i : nat) :
  (2 <= i < n)%nat ->
  nth i (Server.applyBandpassFilter (repeat c n)) 0 = 0.9999 * c
  /\ nth i (runFilter Firmware.applyBandpassFilter reset (repeat c n)) 0
     = 0.3904 * c.
Proof.
  intros Hi. unfold Server.applyBandpassFilter.
  rewrite server_filter_is_fir, firmware_filter_is_fir.
  rewrite !firRun_nth by (rewrite repeat_length; lia).
  destruct i as [|[|j]]; [lia | lia |].
  assert (Hn : forall k, (k < n)%nat -> nth k (repeat c n) 0 = c).
  { intros k Hk. apply nth_repeat_lt. exact Hk. }
  rewrite !Hn by lia. split; lra.
Qed.

Lemma filters_constant_input_witness :
  (2 <= 2 < 3)%nat
  /\ nth 2 (Server.applyBandpassFilter (repeat 100 3)) 0 = 0.9999 * 100
  /\ nth 2 (runFilter Firmware.applyBandpassFilter reset (repeat 100 3)) 0
     = 0.3904 * 100.
Proof.
  split; [lia|]. apply (filters_constant_input 100 3 2). lia.
Defined.

Lemma firRun_bound (c0 c1 c2 p q M : R) (signal : list R) :
  Rabs p <= M -> Rabs q <= M ->
  (forall x, In x signal -> Rabs x <= M) ->
  forall y, In y (firRun c0 c1 c2 p q signal) ->
            Rabs y <= (Rabs c0 + Rabs c1 + Rabs c2) * M.
Proof.
  revert p q. induction signal as [|x rest IH]; intros p q Hp Hq Hs y Hy.
  - destruct Hy.
  - cbn [firRun] in Hy. destruct Hy as [<- | Hy].
    + assert (Hx : Rabs x <= M) by (apply Hs; now left).
      pose proof (Rabs_pos c0). pose proof (Rabs_pos c1). pose proof (Rabs_pos c2).
      eapply Rle_trans; [apply Rabs_triang|].
      eapply Rle_trans; [apply Rplus_le_compat_r, Rabs_triang|].
      rewrite !Rabs_mult. nra.
    + apply (IH x p); auto. 
      * apply Hs. now left.
      * intros z Hz. apply Hs. now right.
Qed.

(** X4: the filters are bounded: if no sample of the stream exceeds [M] in
    magnitude, no output of the server filter exceeds 1.4713 * M and no
    output of the firmware filter exceeds 0.3904 * M. *)
Theorem filters_bounded (M : R) (signal : list R) :
  (forall x, In x signal -> Rabs x <= M) ->
  (forall y, In y (Server.applyBandpassFilter signal) -> Rabs y <= 1.4713 * M)
  /\ (forall y, In y (runFilter Firmware.applyBandpassFilter reset signal) ->
                Rabs y <= 0.3904 * M).
Proof.
  intros Hs.
  assert (HM : signal = [] \/ 0 <= M).
  { destruct signal as [|x rest]; [now left|]. right.
    pose proof (Hs x (or_introl eq_refl)). pose proof (Rabs_pos x). lra. }
  unfold Server.applyBandpassFilter.
  rewrite server_filter_is_fir, firmware_filter_is_fir.
  destruct HM as [-> | HM]; [split; intros y []|].
  assert (H0 : Rabs 0 <= M) by (rewrite Rabs_R0; exact HM).
  split; intros y Hy.
  - pose proof (firRun_bound 0.0976 1.138 (-0.2357) _ _ M signal H0 H0 Hs y Hy)
      as Hb. cbn [reset h0 h1] in Hy.
    replace (Rabs 0.0976 + Rabs 1.138 + Rabs (-0.2357)) with 1.4713 in Hb;
      [exact Hb|].
    rewrite (Rabs_pos_eq 0.0976), (Rabs_pos_eq 1.138), (Rabs_left (-0.2357))
      by lra. lra.
  - pose proof (firRun_bound 0.0976 0.1952 0.0976 _ _ M signal H0 H0 Hs y Hy)
      as Hb.
    replace (Rabs 0.0976 + Rabs 0.1952 + Rabs 0.0976) with 0.3904 in Hb;
      [exact Hb|].
    rewrite (Rabs_pos_eq 0.0976), (Rabs_pos_eq 0.1952) by lra. lra.
Qed.

Lemma filters_bounded_witness :
  (forall x, In x [2048; -2048] -> Rabs x <= 2048)
  /\ (forall y, In y (Server.applyBandpassFilter [2048; -2048]) ->
                Rabs y <= 1.4713 * 2048).
Proof.
  assert (H : forall x, In x [2048; -2048] -> Rabs x <= 2048).
  { intros x [<- | [<- | []]]; unfold Rabs; destruct (Rcase_abs _); lra. }
  split; [exact H|]. exact (proj1 (filters_bounded 2048 [2048; -2048] H)).
Defined.
End FilterResponse.

Section FilterLinear.
Local Open Scope R_scope.

Lemma firRun_scale (c0 c1 c2 a p q : R) (signal : list R) :
  firRun c0 c1 c2 (a * p) (a * q) (map (fun x => a * x) signal)
  = map (fun y => a * y) (firRun c0 c1 c2 p q signal).
Proof.
  revert p q. induction signal as [|x rest IH]; intros p q; [reflexivity|].
  cbn [firRun map]. rewrite IH. f_equal. lra.
Qed.

Lemma firRun_add (c0 c1 c2 p q p' q' : R) (xs ys : list R) :
  firRun c0 c1 c2 (p + p') (q + q')
         (map (fun xy => fst xy + snd xy) (combine xs ys))
  = map (fun uv => fst uv + snd uv)
        (combine (firRun c0 c1 c2 p q xs) (firRun c0 c1 c2 p' q' ys)).
Proof.
  revert p q p' q' ys. induction xs as [|x xs IH]; intros p q p' q' ys;
    [reflexivity|].
  destruct ys as [|y ys]; [reflexivity|].
  cbn [firRun map combine fst snd]. rewrite IH. f_equal. lra.
Qed.

(** X5: the server's batch filter is linear: filtering a scaled signal
    scales the output, and filtering the sample-wise sum of two signals gives
    the sample-wise sum of their outputs. *)
Theorem applyBandpassFilter_linear (a : R) (xs ys : list R) :
  Server.applyBandpassFilter (map (fun x => a * x) xs)
  = map (fun y => a * y) (Server.applyBandpassFilter xs)
  /\ Server.applyBandpassFilter (map (fun xy => fst xy + snd xy) (combine xs ys))
     = map (fun uv => fst uv + snd uv)
           (combine (Server.applyBandpassFilter xs)
                    (Server.applyBandpassFilter ys)).
Proof.
  unfold Server.applyBandpassFilter. rewrite !server_filter_is_fir.
  cbn [reset h0 h1]. to_R. split.
  - rewrite <- firRun_scale. f_equal; lra.
  - rewrite <- firRun_add. f_equal; lra.
Qed.
End FilterLinear.

(** ** Zero crossings *)

Section ZeroCrossings.
Local Open Scope R_scope.

Lemma count_fold_le (P : nat -> bool) (l : list nat) (c : nat) :
  (fold_left (fun z i => if P i then S z else z) l c <= c + length l)%nat.
Proof.
  revert c. induction l as [|i l IH]; intros c; cbn [fold_left length]; [lia|].
  destruct (P i).
  - specialize (IH (S c)). lia.
  - specialize (IH c). lia.
Qed.

Lemma count_fold_all (P : nat -> bool) (l : list nat) (c : nat) :
  (forall i, In i l -> P i = true) ->
  fold_left (fun z i => if P i then S z else z) l c = (c + length l)%nat.
Proof.
  revert c. induction l as [|i l IH]; intros c Hl; cbn [fold_left length];
    [lia|].
  rewrite (Hl i) by now left. rewrite IH by (intros j Hj; apply Hl; now right).
  lia.
Qed.

Lemma count_fold_none (P : nat -> bool) (l : list nat) (c : nat) :
  (forall i, In i l -> P i = false) ->
  fold_left (fun z i => if P i then S z else z) l c = c.
Proof.
  revert c. induction l as [|i l IH]; intros c Hl; cbn [fold_left]; [reflexivity|].
  rewrite (Hl i) by now left. apply IH. intros j Hj. apply Hl. now right.
Qed.

Lemma countZeroCrossings_le (signal : list R) (len : nat) :
  (countZeroCrossings signal len <= len - 1)%nat.
Proof.
  unfold countZeroCrossings.
  pose proof (count_fold_le
                (fun i => crosses (at_ signal (i - 1)) (at_ signal i))
                (seq 1 (len - 1)) 0) as H.
  rewrite length_seq in H. exact H.
Qed.

Lemma crosses_R (p c : R) :
  crosses p c = true <-> (0 < p /\ c < 0) \/ (p < 0 /\ 0 < c).
Proof.
  unfold crosses. to_R.
  rewrite orb_true_iff, !andb_true_iff, !Rltb_true. tauto.
Qed.

Lemma alternating_at (n i : nat) :
  (i < n)%nat -> at_ (alternating n) i = if Nat.even i then 1 else -1.
Proof. intros Hi. unfold alternating. now rewrite at_map_seq. Qed.

Lemma alternating_crossings (n : nat) :
  countZeroCrossings (alternating n) n = (n - 1)%nat.
Proof.
  unfold countZeroCrossings.
  rewrite (count_fold_all
             (fun i => crosses (at_ (alternating n) (i - 1))
                               (at_ (alternating n) i))).
  - now rewrite length_seq.
  - intros i Hi. apply in_seq in Hi.
    rewrite !alternating_at by lia. apply crosses_R.
    replace i with (S (i - 1)) at 2 4 by lia. rewrite Nat.even_succ.
    rewrite <- Nat.negb_even.
    destruct (Nat.even (i - 1)); cbn [negb]; [left | right]; lra.
Qed.

Lemma alternating_length (n : nat) : length (alternating n) = n.
Proof. unfold alternating. now rewrite length_map, length_seq. Qed.

(** The zero-crossing rate both extractors store. *)
Lemma server_zeroCrossingRate (x : R) (rest : list R) (sampleRate : R) :
  Server.zeroCrossingRate (Server.extractEMGFeatures (x :: rest) sampleRate)
  = INR (countZeroCrossings (x :: rest) (length (x :: rest)))
    / INR (length (x :: rest)).
Proof.
  unfold Server.extractEMGFeatures.
  destruct (Server.simpleFFT (x :: rest) sampleRate) as [magnitude frequencyArray].
  cbn [Server.zeroCrossingRate]. unfold ofNat. to_R.
  now rewrite <- !INR_IZR_INZ.
Qed.

Lemma firmware_zeroCrossingRate (signal : list R) (len : nat) :
  Firmware.zeroCrossingRate (Firmware.extractFeatures signal len)
  = INR (countZeroCrossings signal len) / INR len.
Proof.
  cbn [Firmware.extractFeatures Firmware.zeroCrossingRate]. unfold ofNat. to_R.
  now rewrite <- !INR_IZR_INZ.
Qed.

(** X6: the alternating sequence 1, -1, 1, -1, ... of length [n] changes
    sign between every two neighbours: both extractors give it the
    zero-crossing rate [(n - 1) / n]. *)
Theorem zeroCrossingRate_alternating (n : nat) (sampleRate : R) :
  (0 < n)%nat ->
  Server.zeroCrossingRate (Server.extractEMGFeatures (alternating n) sampleRate)
  = INR (n - 1) / INR n
  /\ Firmware.zeroCrossingRate (Firmware.extractFeatures (alternating n) n)
     = INR (n - 1) / INR n.
Proof.
  intros Hn. split.
  - destruct (alternating n) as [|x rest] eqn:E.
    + apply (f_equal (@length R)) in E. rewrite alternating_length in E.
      cbn [length] in E. lia.
    + rewrite server_zeroCrossingRate, <- E, alternating_length.
      now rewrite alternating_crossings.
  - now rewrite firmware_zeroCrossingRate, alternating_crossings.
Qed.

Lemma zeroCrossingRate_alternating_witness :
  (0 < 4)%nat
  /\ Server.zeroCrossingRate (Server.extractEMGFeatures (alternating 4) 200)
     = INR (4 - 1) / INR 4
  /\ Firmware.zeroCrossingRate (Firmware.extractFeatures (alternating 4) 4)
     = INR (4 - 1) / INR 4.
Proof.
  split; [lia|]. apply (zeroCrossingRate_alternating 4 200). lia.
Defined.

(** X7: the zero-crossing rate of a window of [n > 0] samples lies in
    [0, (n - 1) / n], hence below 1, in both extractors; and a window
    without a negative sample has rate 0, zeros included: a sample equal to
    0 never counts as a crossing. *)
Theorem zeroCrossingRate_range (x : R) (rest : list R) (sampleRate : R) :
  let signal := x :: rest in
  let n := length signal in
  0 <= Server.zeroCrossingRate (Server.extractEMGFeatures signal sampleRate)
    <= INR (n - 1) / INR n
  /\ 0 <= Firmware.zeroCrossingRate (Firmware.extractFeatures signal n)
       <= INR (n - 1) / INR n
  /\ INR (n - 1) / INR n < 1
  /\ ((forall y, In y signal -> 0 <= y) ->
      Server.zeroCrossingRate (Server.extractEMGFeatures signal sampleRate) = 0
      /\ Firmware.zeroCrossingRate (Firmware.extractFeatures signal n) = 0).
Proof.
  cbv zeta. set (signal := x :: rest). set (n := length signal).
  assert (Hn : 0 < INR n) by (apply lt_0_INR; subst n signal; cbn [length]; lia).
  assert (Hz : 0 <= INR (countZeroCrossings signal n) / INR n
               <= INR (n - 1) / INR n).
  { split.
    - apply Rmult_le_pos; [apply pos_INR | left; now apply Rinv_0_lt_compat].
    - apply Rmult_le_compat_r; [left; now apply Rinv_0_lt_compat|].
      apply le_INR, countZeroCrossings_le. }
  subst signal. rewrite server_zeroCrossingRate, firmware_zeroCrossingRate.
  fold n. split; [exact Hz|]. split; [exact Hz|]. split.
  - apply (Rmult_lt_reg_r (INR n)); [exact Hn|].
    unfold Rdiv. rewrite Rmult_assoc, Rinv_l, Rmult_1_r, Rmult_1_l by lra.
    apply lt_INR. subst n. cbn [length]. lia.
  - intros Hpos.
    assert (Hc : countZeroCrossings (x :: rest) n = 0%nat).
    { unfold countZeroCrossings. apply count_fold_none.
      intros i Hi. apply in_seq in Hi.
      destruct (crosses _ _) eqn:E; [|reflexivity].
      apply crosses_R in E. exfalso.
      assert (Hat : forall j, 0 <= at_ (x :: rest) j).
      { intros j. unfold at_. to_R.
        destruct (nth_in_or_default j (x :: rest) 0) as [Hin | ->];
          [now apply Hpos | lra]. }
      pose proof (Hat i). pose proof (Hat (i - 1)%nat). lra. }
    rewrite Hc. cbn [INR]. unfold Rdiv. rewrite Rmult_0_l. split; reflexivity.
Qed.

Lemma zeroCrossingRate_range_witness :
  (forall y, In y [0; 3] -> 0 <= y)
  /\ Server.zeroCrossingRate (Server.extractEMGFeatures [0; 3] 200) = 0.
Proof.
  assert (H : forall y, In y [0; 3] -> 0 <= y)
    by (intros y [<- | [<- | []]]; lra).
  split; [exact H|].
  exact (proj1 (proj2 (proj2 (proj2 (zeroCrossingRate_range 0 [3] 200))) H)).
Defined.
End ZeroCrossings.

(** ** Amplitude features *)

Section Amplitudes.
Local Open Scope R_scope.

Lemma sum_fold_shift (f : R -> R) (l : list R) (a : R) :
  fold_left (fun s v => s + f v) l a = a + fold_left (fun s v => s + f v) l 0.
Proof.
  revert a. induction l as [|x l IH]; intros a; cbn [fold_left]; [lra|].
  rewrite IH, (IH (0 + f x)). lra.
Qed.

Lemma sum_fold_cons (f : R -> R) (x : R) (l : list R) :
  fold_left (fun s v => s + f v) (x :: l) 0
  = f x + fold_left (fun s v => s + f v) l 0.
Proof. cbn [fold_left]. rewrite sum_fold_shift. lra. Qed.

Lemma sum_fold_nonneg (f : R -> R) (l : list R) :
  (forall x, 0 <= f x) -> 0 <= fold_left (fun s v => s + f v) l 0.
Proof.
  intros Hf. induction l as [|x l IH]; [cbn; lra|].
  rewrite sum_fold_cons. pose proof (Hf x). lra.
Qed.






(** X9: the signal energy both extractors store is the mean of the squared
    samples of the window. *)
Theorem signalEnergy_mean_square (x : R) (rest : list R) (sampleRate : R) :
  let signal := x :: rest in
  let n := length signal in
  Server.signalEnergy (Server.extractEMGFeatures signal sampleRate)
  = fold_right Rplus 0 (map (fun v => v * v) signal) / INR n
  /\ Firmware.signalEnergy (Firmware.extractFeatures signal n)
     = fold_right Rplus 0 (map (fun v => v * v) signal) / INR n.
Proof.
  cbv zeta. set (signal := x :: rest).
  assert (Hsum : forall l : list R,
             fold_left (fun s v => s + v * v) l 0
             = fold_right Rplus 0 (map (fun v => v * v) l)).
  { induction l as [|y l IH]; [reflexivity|].
    rewrite (sum_fold_cons (fun v => v * v)). cbn [map fold_right]. now rewrite IH. }
  assert (Hn : 0 < INR (length signal))
    by (apply lt_0_INR; subst signal; cbn [length]; lia).
  assert (Hpos : 0 <= fold_left (fun s v => s + v * v) signal 0 / INR (length signal)).
  { apply Rmult_le_pos; [|left; now apply Rinv_0_lt_compat].
    apply (sum_fold_nonneg (fun v => v * v)). intros v. apply Rle_0_sqr. }
  split.
  - subst signal. unfold Server.extractEMGFeatures.
    destruct (Server.simpleFFT (x :: rest) sampleRate) as [magnitude frequencyArray].
    cbn [Server.signalEnergy]. unfold ofNat. to_R. rewrite <- INR_IZR_INZ.
    rewrite sqrt_sqrt by exact Hpos. now rewrite Hsum.
  - cbn [Firmware.extractFeatures Firmware.signalEnergy].
    unfold Firmware.rms, ofNat. to_R. rewrite <- INR_IZR_INZ.
    assert (Hs : Firmware.samples signal (length signal) = signal).
    { unfold Firmware.samples. apply nth_ext with (d := 0) (d' := 0).
      - now rewrite length_map, length_seq.
      - intros i Hi. rewrite length_map, length_seq in Hi.
        change (nth i (map (at_ signal) (seq 0 (length signal))) 0)
          with (at_ (map (at_ signal) (seq 0 (length signal))) i).
        now rewrite at_map_seq. }
    rewrite Hs, sqrt_sqrt by exact Hpos. now rewrite Hsum.
Qed.
End Amplitudes.

(** ** Variance and spectral centroid *)

Section VarianceCentroid.
Local Open Scope R_scope.



Lemma sum_fold_repeat (f : R -> R) (c : R) (n : nat) :
  fold_left (fun s v => s + f v) (repeat c n) 0 = INR n * f c.
Proof.
  induction n as [|n IH]; [cbn; lra|].
  cbn [repeat]. rewrite sum_fold_cons, IH, S_INR. lra.
Qed.




End VarianceCentroid.

(** ** Insights *)

Section Insights.
Local Open Scope R_scope.

Lemma server_insights_fields (features : Server.ProcessedEMGFeatures R) :
  let i := Server.generateEMGInsights features in
  Server.pattern i = fst (Server.classOf features)
  /\ Server.confidence i = snd (Server.classOf features)
  /\ Server.recommendations i
     = Firmware.recommendations
         (Firmware.generateInsights (Firmware.zeroFeatures (T:=R))
                                    (Server.pattern i))
  /\ Server.predictedProgression i
     = Firmware.predictedProgression
         (Firmware.generateInsights (Firmware.zeroFeatures (T:=R))
                                    (Server.pattern i)).
Proof.
  cbv zeta. unfold Server.generateEMGInsights.
  destruct (Server.classOf features) as [[] c]; repeat split.
Qed.





(** X13: the advice tables of the three programs agree.  For each of the
    four classes, the recommendations and the progression text of the
    server's [generateEMGInsights], of the firmware's [generateInsights]
    and of the route's two lookups under the upper-case key are the same
    three strings and the same text; any other key gets the advice of
    normal. *)
Theorem advice_tables_agree :
  (forall (k : Route.LocalClass) (features : Firmware.TremorFeatures R),
      let i := Firmware.generateInsights features (localLabel k) in
      Firmware.recommendations i
      = Route.getRecommendationsForClassification (Route.className k)
      /\ Firmware.predictedProgression i
         = Route.getProgressionForClassification (Route.className k)
      /\ length (Firmware.recommendations i) = 3%nat)
  /\ (forall features : Server.ProcessedEMGFeatures R,
         let i := Server.generateEMGInsights features in
         forall g : Firmware.TremorFeatures R,
           Server.recommendations i
           = Firmware.recommendations
               (Firmware.generateInsights g (Server.pattern i))
           /\ Server.predictedProgression i
              = Firmware.predictedProgression
                  (Firmware.generateInsights g (Server.pattern i)))
  /\ (forall key : string,
         key <> "SEVERE"%string -> key <> "MODERATE"%string ->
         key <> "MILD"%string ->
         Route.getRecommendationsForClassification key
         = Route.getRecommendationsForClassification "NORMAL"
         /\ Route.getProgressionForClassification key
            = Route.getProgressionForClassification "NORMAL").
Proof.
  split; [|split].
  - intros [] features; repeat split.
  - intros features i g. subst i.
    destruct (server_insights_fields features) as (_ & _ & Hr & Hq).
    cbv zeta in Hr, Hq. rewrite Hr, Hq.
    destruct (Server.pattern _); split; reflexivity.
  - intros key H1 H2 H3.
    unfold Route.getRecommendationsForClassification,
      Route.getProgressionForClassification.
    apply String.eqb_neq in H1, H2, H3. rewrite H1, H2, H3.
    split; reflexivity.
Qed.

Lemma advice_tables_agree_witness :
  "unknown"%string <> "SEVERE"%string /\ "unknown"%string <> "MODERATE"%string
  /\ "unknown"%string <> "MILD"%string
  /\ Route.getRecommendationsForClassification "unknown"
     = Route.getRecommendationsForClassification "NORMAL".
Proof.
  assert (H1 : "unknown"%string <> "SEVERE"%string) by discriminate.
  assert (H2 : "unknown"%string <> "MODERATE"%string) by discriminate.
  assert (H3 : "unknown"%string <> "MILD"%string) by discriminate.
  split; [exact H1|]. split; [exact H2|]. split; [exact H3|].
  exact (proj1 (proj2 (proj2 advice_tables_agree) "unknown"%string H1 H2 H3)).
Defined.
End Insights.

(** ** Confidence from the firmware to the stored record *)

Section Confidence.
Local Open Scope R_scope.




End Confidence.

Section ConfidenceBinary64.
Local Open Scope float_scope.

Lemma float_ltb_leb (x y : float) :
  PrimFloat.ltb x y = true -> PrimFloat.leb x y = true.
Proof.
  rewrite ltb_spec, leb_spec. unfold SFltb, SFleb.
  destruct (SFcompare _ _) as [[]|]; intros; try discriminate; reflexivity.
Qed.

(** X15: in binary64 the confidence the route stores is a number of
    [0, 1] for every confidence it can receive, NaN, the infinities and a
    missing field included: NaN, 0 and a missing field become 0.5. *)
Theorem validatedConfidence_binary64 (confidence : option float) :
  let stored := Route.validatedConfidence confidence in
  PrimFloat.leb 0 stored = true /\ PrimFloat.leb stored 1 = true
  /\ (confidence = None \/ confidence = Some PrimFloat.nan
      \/ confidence = Some 0 -> stored = 0.5).
Proof.
  cbv zeta. split; [|split].
  3: { intros [-> | [-> | ->]]; reflexivity. }
  all: destruct confidence as [c|]; [|reflexivity];
    unfold Route.validatedConfidence, mathMax, mathMin, isNaN;
    change (@eqb float FloatArith) with PrimFloat.eqb;
    change (@ltb float FloatArith) with PrimFloat.ltb;
    change (@ofZ float FloatArith 0) with 0;
    change (@ofZ float FloatArith 1) with 1;
    change (@lit float FloatArith 0.5%Q) with 0.5;
    change (PrimFloat.eqb 0 0) with true; change (PrimFloat.eqb 1 1) with true;
    cbn [negb];
    destruct (PrimFloat.eqb c 0) eqn:E0; cbn [orb]; try reflexivity;
    destruct (PrimFloat.eqb c c) eqn:Ec; cbn [negb]; try reflexivity;
    destruct (PrimFloat.ltb c 1) eqn:E1; rewrite ?Ec; cbn [negb];
    try reflexivity;
    destruct (PrimFloat.ltb 0 c) eqn:Ep; rewrite ?Ec; cbn [negb];
    try reflexivity; auto using float_ltb_leb.
Qed.
End ConfidenceBinary64.

(** ** Severity index tables of the route *)

Section RouteTables.
Local Open Scope R_scope.

Lemma bucket_cases (x : R) :
  (bucketOf x = normal <-> x < 20)
  /\ (bucketOf x = mild <-> 20 <= x < 40)
  /\ (bucketOf x = moderate <-> 40 <= x < 70)
  /\ (bucketOf x = severe <-> 70 <= x).
Proof.
  unfold bucketOf, Route.isNormal, Route.isMild, Route.isModerate. to_R.
  destruct (Rltb x 20) eqn:A; [apply Rltb_true in A | apply Rltb_false in A].
  { repeat split; intros; try discriminate; lra. }
  destruct (Rleb 20 x) eqn:B; [apply Rleb_true in B | apply Rleb_false in B; lra].
  destruct (Rltb x 40) eqn:C; [apply Rltb_true in C | apply Rltb_false in C];
    cbn [andb].
  { repeat split; intros; try discriminate; lra. }
  destruct (Rleb 40 x) eqn:D; [apply Rleb_true in D | apply Rleb_false in D; lra].
  destruct (Rltb x 70) eqn:F; [apply Rltb_true in F | apply Rltb_false in F];
    cbn [andb]; repeat split; intros; try discriminate; lra.
Qed.

(** X16: the severity index the route stores for a locally classified
    record falls in the statistics bucket of the same class: 10 is counted
    as normal, 25 as mild, 50 as moderate and 80 as severe. *)
Theorem severityMap_bucket (k : Route.LocalClass) :
  bucketOf (Route.severityMap k) = localLabel k.
Proof.
  destruct k; cbn [Route.severityMap localLabel]; to_R;
    apply bucket_cases; lra.
Qed.

(** X17: the statistics buckets and [generateEMGInsights] cut the severity
    index at the same points 20, 40, 70 but on opposite sides: away from
    these three values the bucket of a record is its pattern, and at each of
    them the bucket is one class above the pattern. *)
Theorem bucket_against_pattern (features : Server.ProcessedEMGFeatures R) :
  let x := Server.severityIndex features in
  let p := Server.pattern (Server.generateEMGInsights features) in
  (x <> 20 -> x <> 40 -> x <> 70 -> bucketOf x = p)
  /\ (x = 20 -> bucketOf x = mild /\ p = normal)
  /\ (x = 40 -> bucketOf x = moderate /\ p = mild)
  /\ (x = 70 -> bucketOf x = severe /\ p = moderate).
Proof.
  cbv zeta. rewrite server_pattern. unfold Server.classOf. to_R.
  set (x := Server.severityIndex features).
  destruct (bucket_cases x) as (Bn & Bm & Bo & Bs).
  destruct (Rltb 70 x) eqn:E7; [apply Rltb_true in E7 | apply Rltb_false in E7];
    [|destruct (Rltb 40 x) eqn:E4;
      [apply Rltb_true in E4 | apply Rltb_false in E4];
      [|destruct (Rltb 20 x) eqn:E2;
        [apply Rltb_true in E2 | apply Rltb_false in E2]]];
    cbn [fst].
  - repeat split; intros; try lra. apply Bs. lra.
  - repeat split; intros; try lra; try (apply Bo; lra); try (apply Bs; lra).
  - repeat split; intros; try lra; try (apply Bm; lra); try (apply Bo; lra).
  - repeat split; intros; try lra; try (apply Bn; lra); try (apply Bm; lra).
Qed.

Lemma bucket_against_pattern_witness :
  let f := Server.mkFeatures 0 0 70 0 0 0 0 0 0 0 in
  Server.severityIndex f = 70
  /\ bucketOf (Server.severityIndex f) = severe
  /\ Server.pattern (Server.generateEMGInsights f) = moderate.
Proof.
  cbv zeta. split; [reflexivity|].
  exact (proj2 (proj2 (proj2 (bucket_against_pattern
                                (Server.mkFeatures 0 0 70 0 0 0 0 0 0 0))))
               eq_refl).
Defined.

(** X18: the four counts of [severityDistribution] partition the records:
    over the reals every severity index is counted in exactly one of
    normal, mild, moderate and severe, so the counts add up to the number of
    records. *)
Theorem severityDistribution_partition (l : list R) :
  let '(n, m, o, s) := Route.severityDistribution l in
  (n + m + o + s)%nat = length l.
Proof.
  unfold Route.severityDistribution.
  induction l as [|x l IH]; [reflexivity|].
  cbn [filter].
  destruct (bucket_cases x) as (Bn & Bm & Bo & Bs).
  unfold bucketOf in Bn, Bm, Bo, Bs.
  destruct (Route.isNormal x) eqn:A; destruct (Route.isMild x) eqn:B;
    destruct (Route.isModerate x) eqn:C; destruct (Route.isSevere x) eqn:D;
    cbn [length]; try lia; exfalso;
    unfold Route.isNormal, Route.isMild, Route.isModerate, Route.isSevere in *;
    to_R;
    repeat match goal with
           | H : _ && _ = true |- _ => apply andb_true_iff in H; destruct H
           | H : _ && _ = false |- _ => apply andb_false_iff in H
           | H : Rltb _ _ = true |- _ => apply Rltb_true in H
           | H : Rltb _ _ = false |- _ => apply Rltb_false in H
           | H : Rleb _ _ = true |- _ => apply Rleb_true in H
           | H : Rleb _ _ = false |- _ => apply Rleb_false in H
           end;
    repeat match goal with H : _ \/ _ |- _ => destruct H end;
    repeat match goal with
           | H : Rltb _ _ = false |- _ => apply Rltb_false in H
           | H : Rleb _ _ = false |- _ => apply Rleb_false in H
           end; lra.
Qed.

Lemma sum_fold_bounds (lo hi : R) (l : list R) :
  (forall x, In x l -> lo <= x <= hi) ->
  INR (length l) * lo <= fold_left (fun s v => s + v) l 0 <= INR (length l) * hi.
Proof.
  induction l as [|x l IH]; intros Hl; [cbn; lra|].
  rewrite (sum_fold_cons (fun v => v)).
  change (length (x :: l)) with (S (length l)). rewrite S_INR.
  pose proof (Hl x (or_introl eq_refl)).
  specialize (IH (fun y Hy => Hl y (or_intror Hy))). lra.
Qed.

(** X19: the averages of the statistics are 0 for an empty result and
    otherwise lie between any two bounds of the averaged values: an average
    severity of records with indices in [0, 100] is in [0, 100]. *)
Theorem average_between (lo hi : R) (values : list R) :
  Route.average (@nil R) = 0
  /\ ((forall x, In x values -> lo <= x <= hi) -> values <> [] ->
      lo <= Route.average values <= hi).
Proof.
  split; [reflexivity|]. intros Hv Hne.
  destruct values as [|x rest]; [congruence|].
  unfold Route.average, ofNat. to_R. rewrite <- INR_IZR_INZ.
  pose proof (sum_fold_bounds lo hi (x :: rest) Hv) as Hs.
  assert (Hn : 0 < INR (length (x :: rest))) by (apply lt_0_INR; cbn; lia).
  set (n := INR (length (x :: rest))) in *.
  set (s := fold_left _ _ _) in *.
  split.
  - apply (Rmult_le_reg_r n); [exact Hn|].
    unfold Rdiv. rewrite Rmult_assoc, Rinv_l, Rmult_1_r by lra. lra.
  - apply (Rmult_le_reg_r n); [exact Hn|].
    unfold Rdiv. rewrite Rmult_assoc, Rinv_l, Rmult_1_r by lra. lra.
Qed.

Lemma average_between_witness :
  (forall x, In x [10; 80] -> 0 <= x <= 100) /\ [10; 80] <> []
  /\ 0 <= Route.average [10; 80] <= 100.
Proof.
  assert (H : forall x, In x [10; 80] -> 0 <= x <= 100)
    by (intros x [<- | [<- | []]]; lra).
  assert (Hne : [10; 80] <> (@nil R)) by discriminate.
  split; [exact H|]. split; [exact Hne|].
  exact (proj2 (average_between 0 100 [10; 80]) H Hne).
Defined.
End RouteTables.

(** ** Quality metrics of the server *)

Section QualityMetrics.
Local Open Scope R_scope.
Import ServerQuality.

Lemma negInfinity_R : negInfinity (T:=R) = 0.
Proof. unfold negInfinity. to_R. unfold Rdiv. rewrite Rinv_0. lra. Qed.

Lemma fold_mathMax_R (l : list R) (a : R) :
  fold_left mathMax l a = fold_left Rmax l a.
Proof.
  revert a. induction l as [|x l IH]; intros a; [reflexivity|].
  cbn [fold_left]. now rewrite mathMax_R, IH.
Qed.

Lemma fold_Rmax_spec (l : list R) (a : R) :
  let m := fold_left Rmax l a in
  a <= m /\ (forall x, In x l -> x <= m) /\ (m = a \/ In m l).
Proof.
  revert a. induction l as [|x l IH]; intros a; cbn [fold_left].
  - repeat split; [lra | intros x [] | now left].
  - destruct (IH (Rmax a x)) as (H1 & H2 & H3).
    pose proof (Rmax_l a x). pose proof (Rmax_r a x).
    repeat split.
    + lra.
    + intros y [<- | Hy]; [lra | now apply H2].
    + destruct H3 as [H3 | H3]; [|right; now right].
      rewrite H3. unfold Rmax. destruct (Rle_dec a x); [right; now left | now left].
Qed.

(** The largest magnitude of a non-empty signal. *)
Lemma maxOf_abs (x : R) (rest : list R) :
  let m := maxOf (map Rabs (x :: rest)) in
  (forall y, In y (x :: rest) -> Rabs y <= m)
  /\ exists y, In y (x :: rest) /\ m = Rabs y.
Proof.
  cbv zeta. unfold maxOf. rewrite fold_mathMax_R, negInfinity_R.
  destruct (fold_Rmax_spec (map Rabs (x :: rest)) 0) as (H1 & H2 & H3).
  cbv zeta in H1, H2, H3. split.
  - intros y Hy. apply H2. now apply in_map.
  - destruct H3 as [H3 | H3].
    + exists x. split; [now left|].
      assert (Hin : In (Rabs x) (map Rabs (x :: rest))) by (now left).
      pose proof (H2 (Rabs x) Hin).
      pose proof (Rabs_pos x). lra.
    + apply in_map_iff in H3. destruct H3 as (y & Hy & Hin).
      exists y. split; [exact Hin | now symmetry].
Qed.

(** X20: the saturation level of a non-empty raw signal is the largest
    sample magnitude as a percentage of 4095.  When no magnitude exceeds
    4095 it lies in [0, 100], and it is 100 exactly when some sample has
    magnitude 4095. *)
Theorem saturationLevel_largest_magnitude
        (x : R) (rest : list R) (sampleRate : R) :
  let raw := x :: rest in
  let s := saturationLevel (qualityMetrics (processRawEMGData raw sampleRate)) in
  (exists y, In y raw /\ s = Rabs y / 4095 * 100)
  /\ (forall y, In y raw -> Rabs y / 4095 * 100 <= s)
  /\ ((forall y, In y raw -> Rabs y <= 4095) ->
      0 <= s <= 100 /\ (s = 100 <-> exists y, In y raw /\ Rabs y = 4095)).
Proof.
  cbv zeta. cbn [processRawEMGData qualityMetrics saturationLevel].
  unfold saturationOf. to_R.
  destruct (maxOf_abs x rest) as (Hall & y0 & Hy0 & Hm). cbv zeta in Hall, Hm.
  change (@fabs R RArith) with Rabs in *.
  set (m := maxOf (map Rabs (x :: rest))) in *.
  split; [exists y0; split; [exact Hy0 | now rewrite Hm]|].
  split; [intros y Hy; pose proof (Hall y Hy); lra|].
  intros Hb. pose proof (Hb y0 Hy0). pose proof (Rabs_pos y0).
  split; [lra|]. split.
  - intros Hs. exists y0. split; [exact Hy0 | lra].
  - intros (y & Hy & Hy4). pose proof (Hall y Hy). lra.
Qed.

Lemma saturationLevel_largest_magnitude_witness :
  (forall y, In y [100; -4095] -> Rabs y <= 4095)
  /\ 0 <= saturationLevel
            (qualityMetrics (processRawEMGData [100; -4095] 200)) <= 100.
Proof.
  assert (H : forall y, In y [100; -4095] -> Rabs y <= 4095).
  { intros y [<- | [<- | []]]; unfold Rabs; destruct (Rcase_abs _); lra. }
  split; [exact H|].
  exact (proj1 (proj2 (proj2 (saturationLevel_largest_magnitude
                                100 [-4095] 200)) H)).
Defined.

Lemma sum_fold_map (f : R -> R) (l : list R) :
  fold_left (fun s v => s + f v) l 0 = fold_right Rplus 0 (map f l).
Proof.
  induction l as [|x l IH]; [reflexivity|].
  rewrite sum_fold_cons. cbn [map fold_right]. now rewrite IH.
Qed.

Lemma indexOf_first (l : list R) (i : nat) :
  NoDup l -> (i < length l)%nat -> indexOf (nth i l 0) l = Some i.
Proof.
  intros Hnd. revert i. induction Hnd as [|x l Hx Hnd IH]; intros i Hi.
  - cbn in Hi. lia.
  - cbn [indexOf]. to_R. destruct i as [|i].
    + cbn [nth]. now rewrite Reqb_refl.
    + cbn [nth]. cbn [length] in Hi.
      assert (Hne : x <> nth i l 0).
      { intros ->. apply Hx. apply nth_In. lia. }
      unfold Reqb. destruct (Req_dec_T x (nth i l 0)); [contradiction|].
      rewrite IH by lia. reflexivity.
Qed.

(** X21: when no value occurs twice in the raw signal, the noise power is
    the mean squared difference between each raw sample and the filtered
    sample at the same position.  (With repeated values the code pairs a
    sample with the filtered sample of the first occurrence of its value.) *)
Theorem noisePower_without_repeats (raw : list R) :
  NoDup raw ->
  let filtered := Server.applyBandpassFilter raw in
  noisePowerOf raw filtered
  = fold_right Rplus 0
      (map (fun p => (fst p - snd p) * (fst p - snd p)) (combine raw filtered))
    / INR (length raw).
Proof.
  intros Hnd filtered. unfold noisePowerOf, ofNat. to_R.
  rewrite <- INR_IZR_INZ. f_equal.
  rewrite (sum_fold_map
             (fun v => residual raw filtered v * residual raw filtered v)).
  f_equal.
  assert (Hlen : length filtered = length raw).
  { subst filtered. unfold Server.applyBandpassFilter.
    rewrite server_filter_is_fir. apply firRun_length. }
  apply nth_ext with (d := 0) (d' := 0).
  - rewrite !length_map, length_combine, Hlen. lia.
  - intros i Hi. rewrite length_map in Hi.
    rewrite (nth_indep _ 0
               ((fun v => residual raw filtered v * residual raw filtered v) 0))
      by (now rewrite length_map).
    rewrite (map_nth (fun v => residual raw filtered v * residual raw filtered v)).
    set (g := fun p : R * R => (fst p - snd p) * (fst p - snd p)).
    rewrite (nth_indep (map g (combine raw filtered)) 0 (g (0, 0)))
      by (rewrite length_map, length_combine, Hlen; lia).
    rewrite (map_nth g). subst g.
    rewrite combine_nth by (now symmetry). cbn [fst snd].
    unfold residual. rewrite indexOf_first by assumption.
    unfold at_. to_R. reflexivity.
Qed.

Lemma noisePower_without_repeats_witness :
  NoDup [1; 0]
  /\ noisePowerOf [1; 0] (Server.applyBandpassFilter [1; 0])
     = fold_right Rplus 0
         (map (fun p => (fst p - snd p) * (fst p - snd p))
              (combine [1; 0] (Server.applyBandpassFilter [1; 0])))
       / INR (length [1; 0]).
Proof.
  assert (H : NoDup [1; 0]).
  { constructor; [intros [H | []]; lra|]. constructor; [intros []|]. constructor. }
  split; [exact H|]. exact (noisePower_without_repeats [1; 0] H).
Defined.
End QualityMetrics.

(** ** A flat-line recording *)

Section FlatLine.
Local Open Scope R_scope.
Import ServerQuality.

Lemma firRun_zeros (c0 c1 c2 : R) (n : nat) :
  firRun c0 c1 c2 0 0 (repeat 0 n) = repeat 0 n.
Proof.
  induction n as [|n IH]; [reflexivity|].
  cbn [repeat firRun]. rewrite IH. f_equal. lra.
Qed.

Lemma server_filter_zeros (n : nat) :
  Server.applyBandpassFilter (repeat 0 n) = repeat 0 n.
Proof.
  unfold Server.applyBandpassFilter. rewrite server_filter_is_fir.
  cbn [reset h0 h1]. to_R. apply firRun_zeros.
Qed.

Lemma rsum_zero (f : nat -> R) (n : nat) :
  (forall t, f t = 0) -> rsum f n = 0.
Proof.
  intros Hf. induction n as [|n IH]; cbn [rsum]; [reflexivity|].
  rewrite IH, Hf. lra.
Qed.

Lemma at_zeros (n t : nat) : at_ (repeat 0 n) t = 0.
Proof.
  unfold at_. to_R.
  destruct (nth_in_or_default t (repeat 0 n) 0) as [Hin | ->]; [|reflexivity].
  now apply repeat_spec in Hin.
Qed.

Lemma binMagnitude_zeros (n m : nat) (sampleRate freq : R) :
  binMagnitude (repeat 0 n) m sampleRate freq = 0.
Proof.
  rewrite binMagnitude_sums.
  rewrite !rsum_zero by (intros t; rewrite at_zeros; lra).
  unfold Rsqr. replace (0 * 0 + 0 * 0) with 0 by lra. apply sqrt_0.
Qed.

Lemma scan_silent (freqOf : nat -> R) (magnitude : list R)
      (l : list nat) (s : Scan R) :
  (forall j, at_ magnitude j = 0) ->
  maxMagnitude s = 0 -> totalPower s = 0 ->
  totalPower (fold_left (scanStep freqOf magnitude) l s) = 0.
Proof.
  intros Hm. revert s. induction l as [|i l IH]; intros s H1 H2; [exact H2|].
  cbn [fold_left]. unfold scanStep.
  destruct (inBand (freqOf i)); [|now apply IH].
  to_R. rewrite (Hm i), H1.
  destruct (Rltb 0 0) eqn:E; [apply Rltb_true in E; lra|].
  apply IH; cbn [maxMagnitude totalPower]; lra.
Qed.

Lemma at_map_zero (f : nat -> R) (l : list nat) (j : nat) :
  (forall k, f k = 0) -> at_ (map f l) j = 0.
Proof.
  intros Hf. unfold at_. to_R.
  destruct (nth_in_or_default j (map f l) 0) as [Hin | ->]; [|reflexivity].
  apply in_map_iff in Hin. destruct Hin as (k & <- & _). apply Hf.
Qed.

Lemma server_bandPower_zeros (n : nat) (sampleRate : R) :
  Server.bandPower (repeat 0 n) sampleRate = 0.
Proof.
  unfold Server.bandPower, Server.simpleFFT, scanBand.
  apply scan_silent; [|reflexivity|reflexivity].
  intros j. apply at_map_zero. intros k. apply binMagnitude_zeros.
Qed.

Lemma server_rms_zeros (n : nat) (sampleRate : R) :
  Server.rmsAmplitude (Server.extractEMGFeatures (repeat 0 (S n)) sampleRate) = 0.
Proof.
  change (repeat 0 (S n)) with (0 :: repeat 0 n).
  unfold Server.extractEMGFeatures.
  destruct (Server.simpleFFT (0 :: repeat 0 n) sampleRate)
    as [magnitude frequencyArray].
  cbn [Server.rmsAmplitude]. to_R.
  change (0 :: repeat 0 n) with (repeat 0 (S n)).
  rewrite (sum_fold_repeat (fun v => v * v)).
  replace (INR (S n) * (0 * 0) / _) with 0 by (unfold Rdiv; lra).
  apply sqrt_0.
Qed.

Lemma server_zcr_zeros (n : nat) (sampleRate : R) :
  Server.zeroCrossingRate
    (Server.extractEMGFeatures (repeat 0 (S n)) sampleRate) = 0.
Proof.
  change (repeat 0 (S n)) with (0 :: repeat 0 n).
  rewrite server_zeroCrossingRate.
  replace (countZeroCrossings (0 :: repeat 0 n) (length (0 :: repeat 0 n)))
    with 0%nat; [cbn [INR]; unfold Rdiv; lra|].
  symmetry. unfold countZeroCrossings. apply count_fold_none.
  intros i _. destruct (crosses _ _) eqn:E; [|reflexivity].
  apply crosses_R in E. change (0 :: repeat 0 n) with (repeat 0 (S n)) in E.
  rewrite !at_zeros in E. lra.
Qed.

(** X22: a flat-line recording (every raw sample 0) goes through the whole
    server pipeline as zeros: the filtered signal is zero, RMS amplitude,
    dominant frequency and severity index are 0, the pattern is normal with
    confidence 0.4, the signal-to-noise ratio is 0 and the data quality is
    rated poor, with saturation level 0. *)
Theorem flat_line_recording (n : nat) (sampleRate : R) :
  let p := processRawEMGData (repeat 0 (S n)) sampleRate in
  let i := Server.generateEMGInsights (features p) in
  filteredSignal p = repeat 0 (S n)
  /\ Server.rmsAmplitude (features p) = 0
  /\ Server.dominantFrequency (features p) = 0
  /\ Server.severityIndex (features p) = 0
  /\ Server.pattern i = normal /\ Server.confidence i = 0.4
  /\ signalToNoiseRatio (qualityMetrics p) = 0
  /\ dataQuality (qualityMetrics p) = poor
  /\ saturationLevel (qualityMetrics p) = 0.
Proof.
  cbv zeta.
  cbn [processRawEMGData filteredSignal features qualityMetrics
       signalToNoiseRatio dataQuality saturationLevel].
  rewrite server_filter_zeros.
  pose proof (server_rms_zeros n sampleRate) as Hr.
  pose proof (server_zcr_zeros n sampleRate) as Hz.
  pose proof (proj2 (server_empty_band (repeat 0 (S n)) sampleRate
                                       (server_bandPower_zeros (S n) sampleRate)))
    as Hd.
  assert (Hs : Server.severityIndex
                 (Server.extractEMGFeatures (repeat 0 (S n)) sampleRate) = 0).
  { rewrite server_severityIndex, server_severityOf, Hr, Hd, Hz.
    rewrite clamp_inside; lra. }
  set (f := Server.extractEMGFeatures (repeat 0 (S n)) sampleRate) in *.
  destruct (server_insights_fields f) as (Hp & Hc & _). cbv zeta in Hp, Hc.
  assert (Hclass : Server.classOf f = (normal, 0.4)).
  { unfold Server.classOf. rewrite Hs, Hz, mathMin_R. to_R. lits.
    repeat match goal with
           | |- context [Rltb ?a 0] =>
             let E := fresh "E" in
             destruct (Rltb a 0) eqn:E; [apply Rltb_true in E; lra|]
           end.
    f_equal. rewrite mathMin_R. unfold Rmin.
    destruct (Rle_dec (4 / 5) (2 / 5 + 0 * 5)); lra. }
  assert (Hnoise : noisePowerOf (repeat 0 (S n)) (repeat 0 (S n)) = 0).
  { unfold noisePowerOf. to_R.
    rewrite (sum_fold_repeat
               (fun v => residual (repeat 0 (S n)) (repeat 0 (S n)) v
                         * residual (repeat 0 (S n)) (repeat 0 (S n)) v)).
    assert (Hres : residual (repeat 0 (S n)) (repeat 0 (S n)) 0 = 0).
    { unfold residual. cbn [repeat indexOf]. to_R. rewrite Reqb_refl.
      unfold at_. cbn [nth]. to_R. lra. }
    rewrite Hres. unfold Rdiv. lra. }
  assert (Hsnr : snrOf (signalPowerOf (repeat 0 (S n)))
                       (noisePowerOf (repeat 0 (S n)) (repeat 0 (S n))) = 0).
  { unfold snrOf. rewrite Hnoise. to_R.
    destruct (Rltb 0 0) eqn:E; [apply Rltb_true in E; lra | reflexivity]. }
  rewrite Hp, Hc, Hclass, Hsnr. cbn [fst snd].
  repeat split; try assumption.
  - unfold qualityOf. to_R.
    repeat match goal with
           | |- context [Rltb ?a 0] =>
             let E := fresh "E" in
             destruct (Rltb a 0) eqn:E; [apply Rltb_true in E; lra|]
           end.
    reflexivity.
  - unfold saturationOf.
    change (repeat 0 (S n)) with (0 :: repeat 0 n).
    destruct (maxOf_abs 0 (repeat 0 n)) as (_ & y & Hy & Hm). cbv zeta in Hm.
    change (@fabs R RArith) with Rabs.
    change (0 :: repeat 0 n) with (repeat 0 (S n)) in Hy.
    apply repeat_spec in Hy. subst y. rewrite Hm, Rabs_R0. to_R. lra.
Qed.
End FlatLine.

(** ** The firmware's window, smoothing and sampling loop *)

Section FirmwareWindow.
Context {T : Type} `{Arith T} `{Transc T}.


End FirmwareWindow.


Section FirmwareSmoothing.
Local Open Scope R_scope.

(** X24: when successive windows have the same features, the smoothed
    mean and RMS amplitudes approach them geometrically: after [k] windows
    the distance to the window's value is [0.8^k] times the initial
    distance; the other fields are those of the window from the first
    window on. *)
Theorem smoothing_converges (k : nat) (prev features : Firmware.TremorFeatures R) :
  let s := smoothed k prev features in
  Firmware.rmsAmplitude s - Firmware.rmsAmplitude features
  = 0.8 ^ k * (Firmware.rmsAmplitude prev - Firmware.rmsAmplitude features)
  /\ Firmware.meanAmplitude s - Firmware.meanAmplitude features
     = 0.8 ^ k * (Firmware.meanAmplitude prev - Firmware.meanAmplitude features)
  /\ ((0 < k)%nat ->
      Firmware.dominantFrequency s = Firmware.dominantFrequency features
      /\ Firmware.frequencyPower s = Firmware.frequencyPower features
      /\ Firmware.spectralCentroid s = Firmware.spectralCentroid features
      /\ Firmware.zeroCrossingRate s = Firmware.zeroCrossingRate features
      /\ Firmware.signalEnergy s = Firmware.signalEnergy features
      /\ Firmware.entropy s = Firmware.entropy features).
Proof.
  cbv zeta. unfold smoothed. induction k as [|k IH].
  - cbn [Nat.iter nat_rect pow]. split; [lra | split; [lra | intros Hk; lia]].
  - destruct IH as (Hr & Hm & _). rewrite Nat.iter_succ.
    set (p := Nat.iter k _ prev) in *. clearbody p.
    cbn [pow]. set (c := _ ^ k) in *. clearbody c.
    unfold Firmware.smooth.
    cbn [Firmware.rmsAmplitude Firmware.meanAmplitude
         Firmware.dominantFrequency Firmware.frequencyPower
         Firmware.spectralCentroid Firmware.zeroCrossingRate
         Firmware.signalEnergy Firmware.entropy].
    to_R. lits. split; [lra | split; [lra | intros _; repeat split]].
Qed.

Lemma smoothing_converges_witness :
  (0 < 1)%nat
  /\ Firmware.entropy (smoothed 1 Firmware.zeroFeatures (midRange 5))
     = Firmware.entropy (midRange 5).
Proof.
  split; [lia|].
  apply (smoothing_converges 1 Firmware.zeroFeatures (midRange 5)). lia.
Defined.
End FirmwareSmoothing.

Section SamplingLoop.
Context {T : Type} `{Arith T} `{Transc T}.




End SamplingLoop.


Section Battery.
Local Open Scope R_scope.

(** X26: the simulated battery level is always between 80 and 90
    percent. *)
Theorem getBatteryLevel_range (millis : R) :
  80 <= FirmwareLoop.getBatteryLevel millis <= 90.
Proof.
  unfold FirmwareLoop.getBatteryLevel. to_R. lits.
  pose proof (SIN_bound (millis / 10000)). lra.
Qed.
End Battery.
